(** * z_validate_utf8: a shallow embedding of the AVX2 UTF-8 validator

    The development follows [src/z_validate.c].  A 256-bit vector is a list
    of 32 unsigned bytes (lane 0 is the byte at the lowest address), the
    integer variables of the C function are [Z] with their wrap-around
    written out, and memory is a total map from offsets (relative to the
    [data] argument) to bytes.  Every vector load records the offsets it
    touches, so that the function returns its verdict together with the
    list of offsets it read.

    The loads are described twice.  [v_load] reads 32 bytes at any offset;
    [z_validate_utf8], [verdict] and [reads] are built on it and say what
    the function computes and reads when its loads are unaligned loads.
    [aligned_load] is the load the source has, [*(vec_t * )p] on the
    32-byte aligned type [__m256i], which faults at an address that is no
    multiple of 32; [z_validate_utf8_at] is built on it and says how a call
    ends: with a returned value, or in a fault. *)

From Stdlib Require Import ZArith List Lia Bool.
From Stdlib.Strings Require Import Byte.
From Equations Require Import Equations.
Import ListNotations.
Local Open Scope Z_scope.

(** ** Machine integers *)

Definition uint32 (x : Z) : Z := x mod 2 ^ 32.
Definition uint64 (x : Z) : Z := x mod 2 ^ 64.
(** Two's complement reading of a 32-bit pattern (the [int] returned by
    [_mm256_movemask_epi8]). *)
Definition int32 (x : Z) : Z := (x + 2 ^ 31) mod 2 ^ 32 - 2 ^ 31.

(** ** Vectors and the AVX2 intrinsics used by the validator *)

Definition vec_t := list Z.

Definition lane (v : vec_t) (i : nat) : Z := nth i v 0.

Definition mk_vec (f : nat -> Z) : vec_t := map f (seq 0 32).

Definition _mm256_set1_epi8 (b : Z) : vec_t := mk_vec (fun _ => b mod 256).

Definition _mm256_setr_epi8 (l : list Z) : vec_t :=
  mk_vec (fun i => nth i l 0 mod 256).

(** [#define LOOKUP16(...) _mm256_setr_epi8(__VA_ARGS__, __VA_ARGS__)] *)
Definition LOOKUP16 (l : list Z) : vec_t := _mm256_setr_epi8 (l ++ l).

(** One 128-bit half of the result of [vperm2i128], chosen by a 4-bit
    control: bit 3 zeroes the half, bits 1:0 pick a.lo, a.hi, b.lo, b.hi. *)
Definition permute_half (a b : vec_t) (ctl : Z) (j : nat) : Z :=
  if Z.testbit ctl 3 then 0
  else match Z.land ctl 3 with
       | 0 => lane a j
       | 1 => lane a (16 + j)
       | 2 => lane b j
       | _ => lane b (16 + j)
       end.

Definition _mm256_permute2x128_si256 (a b : vec_t) (imm : Z) : vec_t :=
  mk_vec (fun i =>
    if (i <? 16)%nat then permute_half a b (Z.land imm 15) i
    else permute_half a b (Z.land (Z.shiftr imm 4) 15) (i - 16)).

(** [vpalignr]: in each 128-bit half, the 32-byte concatenation a:b (b in
    the low bytes) is shifted right by [imm] bytes and the low 16 bytes are
    kept. *)
Definition _mm256_alignr_epi8 (a b : vec_t) (imm : nat) : vec_t :=
  mk_vec (fun i =>
    let base := (16 * (i / 16))%nat in
    let k := (i mod 16 + imm)%nat in
    if (k <? 16)%nat then lane b (base + k)
    else if (k <? 32)%nat then lane a (base + (k - 16))
    else 0).

(** Bit [i] of the result is the top bit of lane [i]; the intrinsic
    returns a (signed) [int]. *)
Fixpoint top_bits (v : list Z) : Z :=
  match v with
  | [] => 0
  | b :: v' => Z.b2z (Z.testbit b 7) + 2 * top_bits v'
  end.

Definition _mm256_movemask_epi8 (v : vec_t) : Z := int32 (top_bits v).

(** The 16-bit lanes of a vector, little endian. *)
Definition word16 (v : vec_t) (j : nat) : Z :=
  lane v (2 * j) + 256 * lane v (2 * j + 1).

Definition of_words16 (w : nat -> Z) : vec_t :=
  mk_vec (fun i =>
    if Nat.even i then w (i / 2)%nat mod 256
    else (w (i / 2)%nat / 256) mod 256).

Definition _mm256_slli_epi16 (v : vec_t) (n : Z) : vec_t :=
  of_words16 (fun j =>
    if n >? 15 then 0 else Z.shiftl (word16 v j) n mod 2 ^ 16).

Definition _mm256_srli_epi16 (v : vec_t) (n : Z) : vec_t :=
  of_words16 (fun j =>
    if n >? 15 then 0 else Z.shiftr (word16 v j) n).

Definition _mm256_and_si256 (a b : vec_t) : vec_t :=
  mk_vec (fun i => Z.land (lane a i) (lane b i)).

(** [vpshufb]: an index byte with its top bit set yields zero, otherwise
    its low four bits select a byte of the same 128-bit half of the table. *)
Definition _mm256_shuffle_epi8 (a b : vec_t) : vec_t :=
  mk_vec (fun i =>
    if Z.testbit (lane b i) 7 then 0
    else lane a (16 * (i / 16) + Z.to_nat (Z.land (lane b i) 15))).

(** [vptest]: 1 when the bitwise AND of the operands is all zero. *)
Definition _mm256_testz_si256 (a b : vec_t) : Z :=
  if forallb (fun i => Z.land (lane a i) (lane b i) =? 0) (seq 0 32)
  then 1 else 0.

(** ** Memory and vector loads *)

Definition byte_val (b : byte) : Z := Z.of_N (Byte.to_N b).

(** The byte stored at [data + i], for every offset [i]. *)
Definition memory := Z -> byte.

(** The offsets touched by a 32-byte load at offset [off]. *)
Definition span (off : Z) : list Z := map (fun i => off + Z.of_nat i) (seq 0 32).

(** [*(vec_t * )(data + off)], alignment aside: the vector and the offsets
    read. *)
Definition v_load (mem : memory) (off : Z) : vec_t * list Z :=
  (mk_vec (fun i => byte_val (mem (off + Z.of_nat i))), span off).

(** ** The validator *)

Definition v_shift_left (top bottom : vec_t) : vec_t :=
  let shl_16 := _mm256_permute2x128_si256 top bottom 3 in
  _mm256_alignr_epi8 top shl_16 15.

(** Error lookup tables for the first, second, and third nibbles. *)
Definition error_1_table : list Z :=
  [ 0x00; 0x00; 0x00; 0x00;
    0x00; 0x00; 0x00; 0x00;
    0x00; 0x00; 0x00; 0x00;
    0x01; 0x00; 0x06; 0x18 ].

Definition error_2_table : list Z :=
  [ 0x03; 0x01; 0x00; 0x00;
    0x08; 0x10; 0x10; 0x10;
    0x10; 0x10; 0x10; 0x10;
    0x10; 0x14; 0x10; 0x10 ].

Definition error_3_table : list Z :=
  [ 0x11; 0x11; 0x11; 0x11;
    0x11; 0x11; 0x11; 0x11;
    0x13; 0x1B; 0x1D; 0x1D;
    0x19; 0x19; 0x19; 0x19 ].

Definition error_1 : vec_t := LOOKUP16 error_1_table.
Definition error_2 : vec_t := LOOKUP16 error_2_table.
Definition error_3 : vec_t := LOOKUP16 error_3_table.

Definition mask_0F : vec_t := _mm256_set1_epi8 0x0F.

(** The local variables of the inner [for (n = 1; n <= 3; n++)] loop. *)
Record masks := { m_set : Z; m_cont : Z; m_req : Z }.

(** One round of the inner loop; [merge] is how the shifted leader mask
    is merged into [req] (the source adds: [req += set << n]). *)
Definition mask_round (merge : Z -> Z -> Z) (bytes : vec_t) (high : Z)
    (st : masks) (n : Z) : masks :=
  let bit := _mm256_slli_epi16 bytes n in
  let set := Z.land (m_set st) (uint32 (_mm256_movemask_epi8 bit)) in
  let cont := if n =? 1 then uint32 (Z.lxor high set) else m_cont st in
  let req := merge (m_req st) (uint64 (Z.shiftl set n)) in
  {| m_set := set; m_cont := cont; m_req := req |}.

(** [cont] is uninitialised before the first round, which assigns it; the
    model starts it at 0. *)
Definition cont_masks (merge : Z -> Z -> Z) (bytes : vec_t) (high last_cont : Z)
    : masks :=
  fold_left (mask_round merge bytes high) [1; 2; 3]
            {| m_set := high; m_cont := 0; m_req := last_cont |}.

(** Lines 205-213 and the AND of line 216. *)
Definition error_vec (bytes shifted_bytes : vec_t) : vec_t * vec_t :=
  let m_1 := _mm256_and_si256 (_mm256_srli_epi16 shifted_bytes 4) mask_0F in
  let e_1 := _mm256_shuffle_epi8 error_1 m_1 in
  let m_2 := _mm256_and_si256 shifted_bytes mask_0F in
  let e_2 := _mm256_shuffle_epi8 error_2 m_2 in
  let m_3 := _mm256_and_si256 (_mm256_srli_epi16 bytes 4) mask_0F in
  let e_3 := _mm256_shuffle_epi8 error_3 m_3 in
  (_mm256_and_si256 e_1 e_2, e_3).

(** What one iteration of the chunk loop does. *)
Inductive iter_result :=
| Skip                                         (* [continue] *)
| Reject                                       (* [return 0] *)
| Pass (last_cont : Z) (next_bytes : vec_t).   (* falls through *)

Definition add64 (a b : Z) : Z := uint64 (a + b).

(** The body of the chunk loop at offset [data], with the offsets read
    (alignment aside, see [chunk_body_at]). *)
Definition chunk_body (merge : Z -> Z -> Z) (mem : memory) (data : Z)
    (last_cont : Z) (next_bytes : vec_t) : iter_result * list Z :=
  let '(bytes, rd) := v_load mem data in
  let high := uint32 (_mm256_movemask_epi8 bytes) in
  if Z.lor high last_cont =? 0 then (Skip, rd)
  else
    let m := cont_masks merge bytes high last_cont in
    if negb (m_cont m =? uint32 (m_req m)) then (Reject, rd)
    else
      let shifted_bytes := next_bytes in
      let '(e_12, e_3) := error_vec bytes shifted_bytes in
      if _mm256_testz_si256 e_12 e_3 =? 0 then (Reject, rd)
      else
        let last_cont := uint32 (Z.shiftr (m_req m) 32) in
        let '(next_bytes, rd') := v_load mem (data + 31) in
        (Pass last_cont next_bytes, rd ++ rd').

(** The chunk loop: [for (; len > 0; len -= 32, data += 32)] followed by
    [return last_cont == 0].  Returns the verdict and the offsets read. *)
Equations? chunk_loop (merge : Z -> Z -> Z) (mem : memory) (data len : Z)
    (last_cont : Z) (next_bytes : vec_t) : Z * list Z
    by wf (Z.to_nat len) lt :=
  chunk_loop merge mem data len last_cont next_bytes with Z_gt_dec len 0 => {
    | right _ := (Z.b2z (last_cont =? 0), []);
    | left _ :=
        match chunk_body merge mem data last_cont next_bytes with
        | (Reject, rd) => (0, rd)
        | (Skip, rd) =>
            let '(r, rd') :=
              chunk_loop merge mem (data + 32) (len - 32) last_cont next_bytes in
            (r, rd ++ rd')
        | (Pass last_cont' next_bytes', rd) =>
            let '(r, rd') :=
              chunk_loop merge mem (data + 32) (len - 32) last_cont' next_bytes' in
            (r, rd ++ rd')
        end }.
Proof. all: lia. Qed.

(** The function body, with the merge operation of the inner loop as a
    parameter; [z_validate_utf8] is the instance that adds, as the source
    does. *)
Definition validate_with (merge : Z -> Z -> Z) (mem : memory) (len : Z)
    : Z * list Z :=
  let last_cont := 0 in
  let '(first, rd) := v_load mem 0 in
  let next_bytes := v_shift_left first (_mm256_set1_epi8 0) in
  let '(r, rd') := chunk_loop merge mem 0 len last_cont next_bytes in
  (r, rd ++ rd').

Definition z_validate_utf8 (mem : memory) (len : Z) : Z * list Z :=
  validate_with add64 mem len.

(** Zero-filled memory holding the bytes [l] from offset 0. *)
Definition mem_of (l : list byte) : memory :=
  fun i => if i <? 0 then x00 else nth (Z.to_nat i) l x00.

(** The value returned by the C function, and the offsets it read, when
    its loads are unaligned loads. *)
Definition verdict (mem : memory) (len : Z) : Z := fst (z_validate_utf8 mem len).
Definition reads (mem : memory) (len : Z) : list Z := snd (z_validate_utf8 mem len).

(** Number of iterations of the chunk loop: ceil(len / 32), 0 for len <= 0. *)
Definition chunks (len : Z) : nat := Z.to_nat ((len + 31) / 32).

(** The loop variables [(last_cont, next_bytes)] at the start of iteration
    [k] (counting from 0), when no earlier iteration returned. *)
Fixpoint state_at (merge : Z -> Z -> Z) (mem : memory) (k : nat)
    : option (Z * vec_t) :=
  match k with
  | O => Some (0, v_shift_left (fst (v_load mem 0)) (_mm256_set1_epi8 0))
  | S k' =>
      match state_at merge mem k' with
      | None => None
      | Some (last_cont, next_bytes) =>
          match fst (chunk_body merge mem (32 * Z.of_nat k') last_cont next_bytes) with
          | Reject => None
          | Skip => Some (last_cont, next_bytes)
          | Pass last_cont' next_bytes' => Some (last_cont', next_bytes')
          end
      end
  end.

(** The verdict of the loop read off from the loop variables after the
    last iteration. *)
Definition final (s : option (Z * vec_t)) : Z :=
  match s with
  | None => 0
  | Some (last_cont, _) => Z.b2z (last_cont =? 0)
  end.

(** The decisions of [chunk_body] as a function of the two vectors it
    loads: [bytes] at [data] and [next] at [data + 31]. *)
Definition chunk_step (merge : Z -> Z -> Z) (bytes : vec_t) (last_cont : Z)
    (next_bytes next : vec_t) : iter_result :=
  let high := uint32 (_mm256_movemask_epi8 bytes) in
  if Z.lor high last_cont =? 0 then Skip
  else
    let m := cont_masks merge bytes high last_cont in
    if negb (m_cont m =? uint32 (m_req m)) then Reject
    else if _mm256_testz_si256 (fst (error_vec bytes next_bytes))
                               (snd (error_vec bytes next_bytes)) =? 0
    then Reject
    else Pass (uint32 (Z.shiftr (m_req m) 32)) next.

(** ** Byte classes, masks and the scalar view of a chunk *)

(** A vector whose 32 lanes are unsigned bytes. *)
Definition bytes_vec (v : vec_t) : Prop :=
  length v = 32%nat /\ forall i, (i < 32)%nat -> 0 <= lane v i < 256.

Definition is_high (b : Z) : bool := 128 <=? b.               (* 1xxxxxxx *)
Definition is_cont (b : Z) : bool := (128 <=? b) && (b <? 192). (* 10xxxxxx *)
Definition lead1 (b : Z) : bool := 192 <=? b.                 (* 11xxxxxx *)
Definition lead2 (b : Z) : bool := 224 <=? b.                 (* 111xxxxx *)
Definition lead3 (b : Z) : bool := 240 <=? b.                 (* 1111xxxx *)

(** The bit mask with bit [i] set when the [i]-th byte satisfies [f]. *)
Fixpoint mask_of (f : Z -> bool) (l : list Z) : Z :=
  match l with
  | [] => 0
  | b :: l' => Z.b2z (f b) + 2 * mask_of f l'
  end.

(** The integers below [n], for exhaustive checks. *)
Definition zrange (n : nat) : list Z := map Z.of_nat (seq 0 n).

(** The three table lookups for a pair of adjacent bytes, ANDed. *)
Definition err_bits (prev cur : Z) : Z :=
  Z.land (Z.land (nth (Z.to_nat (prev / 16)) error_1_table 0)
                 (nth (Z.to_nat (prev mod 16)) error_2_table 0))
         (nth (Z.to_nat (cur / 16)) error_3_table 0).

(** The five disallowed classes of nibble triples of the source's header
    comment: first and second nibble of a byte, first nibble of the next. *)
Definition disallowed (n1 n2 n3 : Z) : Prop :=
  (n1 = 0xC /\ 0 <= n2 <= 1) \/
  (n1 = 0xE /\ n2 = 0 /\ 8 <= n3 <= 9) \/
  (n1 = 0xE /\ n2 = 0xD /\ 0xA <= n3 <= 0xB) \/
  (n1 = 0xF /\ n2 = 4 /\ 9 <= n3 <= 0xF) \/
  (n1 = 0xF /\ 5 <= n2 <= 0xF).

Definition disallowedb (n1 n2 n3 : Z) : bool :=
  ((n1 =? 0xC) && (0 <=? n2) && (n2 <=? 1)) ||
  ((n1 =? 0xE) && (n2 =? 0) && (8 <=? n3) && (n3 <=? 9)) ||
  ((n1 =? 0xE) && (n2 =? 0xD) && (0xA <=? n3) && (n3 <=? 0xB)) ||
  ((n1 =? 0xF) && (n2 =? 4) && (9 <=? n3) && (n3 <=? 0xF)) ||
  ((n1 =? 0xF) && (5 <=? n2) && (n2 <=? 0xF)).

Definition bytes_vecb (v : vec_t) : bool :=
  (length v =? 32)%nat && forallb (fun b => (0 <=? b) && (b <? 256)) v.

(** The continuation obligations a byte creates: bit [j] is set when the
    byte at distance [j + 1] after it has to be a continuation byte. *)
Definition leader_bits (b : Z) : Z :=
  Z.b2z (lead1 b) + 2 * Z.b2z (lead2 b) + 4 * Z.b2z (lead3 b).

(** The continuation check byte by byte: [o] holds the pending
    obligations (bit 0 for the next byte); a byte passes when it is a
    continuation byte exactly if bit 0 is set, and merges its own
    obligations into the rest. *)
Fixpoint scan (merge : Z -> Z -> Z) (o : Z) (l : list Z) : option Z :=
  match l with
  | [] => Some o
  | b :: l' =>
      if Bool.eqb (is_cont b) (Z.odd o)
      then scan merge (merge (o / 2) (leader_bits b)) l'
      else None
  end.

(** The carries that occur: the pending bits form a prefix. *)
Definition carry_ok (o : Z) : Prop := o = 0 \/ o = 1 \/ o = 3 \/ o = 7.

(** The merged required-continuation mask of a chunk [l] with carry [o]. *)
Definition req_of (merge : Z -> Z -> Z) (o : Z) (l : list Z) : Z :=
  merge (merge (merge o (2 * mask_of lead1 l)) (4 * mask_of lead2 l))
        (8 * mask_of lead3 l).

(** No lane of the chunk shows an error bit against the shifted view. *)
Definition pairs_clean (bytes shifted : vec_t) : bool :=
  forallb (fun i => err_bits (lane shifted i) (lane bytes i) =? 0) (seq 0 32).

(** [chunk_step] in scalar terms. *)
Definition chunk_ref (merge : Z -> Z -> Z) (bytes : vec_t) (last_cont : Z)
    (next_bytes next : vec_t) : iter_result :=
  if (mask_of is_high bytes =? 0) && (last_cont =? 0) then Skip
  else match scan merge last_cont bytes with
       | None => Reject
       | Some o => if pairs_clean bytes next_bytes then Pass o next else Reject
       end.

(** The number of continuation bytes a byte asks for. *)
Definition reach (b : Z) : Z :=
  Z.b2z (lead1 b) + Z.b2z (lead2 b) + Z.b2z (lead3 b).

(** The same check with a counter: [r] continuation bytes are still
    expected; a carry [o] of [scan] is [Z.ones r]. *)
Fixpoint count_scan (r : Z) (l : list Z) : option Z :=
  match l with
  | [] => Some r
  | b :: l' =>
      if Bool.eqb (is_cont b) (0 <? r)
      then count_scan (if is_cont b then r - 1 else reach b) l'
      else None
  end.

(** Whether the byte [j] places after three consecutive bytes [x3 x2 x1]
    ([x1] last) is required to be a continuation byte by one of them. *)
Definition required_after (x3 x2 x1 : Z) (j : Z) : bool :=
  (j + 1 <=? reach x1) || (j + 2 <=? reach x2) || (j + 3 <=? reach x3).

(** The byte at offset [i], and the first [32 * k] bytes of the memory. *)
Definition byte_at (mem : memory) (i : Z) : Z := byte_val (mem i).

Definition bytes_upto (mem : memory) (n : nat) : list Z :=
  map (fun i => byte_at mem (Z.of_nat i)) (seq 0 n).

(** The byte before offset [i]; 0 before the first byte, as the validator
    fills it in. *)
Definition prev_byte (mem : memory) (i : Z) : Z :=
  if i <=? 0 then 0 else byte_at mem (i - 1).

(** ** UTF-8, after the specification *)

(** A Unicode scalar value: U+0000 to U+10FFFF without the surrogates
    U+D800 to U+DFFF. *)
Definition valid_code_point (cp : Z) : Prop :=
  0 <= cp <= 0x10FFFF /\ ~ (0xD800 <= cp <= 0xDFFF).

(** The UTF-8 encoding of a code point, in the shortest form:
    0xxxxxxx, 110xxxxx 10xxxxxx, 1110xxxx 10xxxxxx 10xxxxxx or
    11110xxx 10xxxxxx 10xxxxxx 10xxxxxx. *)
Definition encode (cp : Z) : list Z :=
  if cp <? 0x80 then [cp]
  else if cp <? 0x800 then [0xC0 + cp / 64; 0x80 + cp mod 64]
  else if cp <? 0x10000 then
    [0xE0 + cp / 4096; 0x80 + (cp / 64) mod 64; 0x80 + cp mod 64]
  else
    [0xF0 + cp / 262144; 0x80 + (cp / 4096) mod 64;
     0x80 + (cp / 64) mod 64; 0x80 + cp mod 64].

Definition utf8_encode (cps : list Z) : list Z := flat_map encode cps.

(** A byte sequence is valid UTF-8 when it is the encoding of a sequence
    of valid code points. *)
Definition valid_utf8 (l : list Z) : Prop :=
  exists cps, Forall valid_code_point cps /\ l = utf8_encode cps.


(** The byte-by-byte reference: the counter of [count_scan] together with
    the table check on every pair of adjacent bytes; [prev] is the byte
    before the list. *)
Fixpoint ref_scan (r prev : Z) (l : list Z) : option (Z * Z) :=
  match l with
  | [] => Some (r, prev)
  | b :: l' =>
      if Bool.eqb (is_cont b) (0 <? r) && (err_bits prev b =? 0)
      then ref_scan (if is_cont b then r - 1 else reach b) b l'
      else None
  end.

(** ** The loads as the source has them

    [vec_t] is [__m256i], so [*(vec_t * )p] is a 32-byte aligned load: it
    faults unless the address [p] is a multiple of 32.  The definitions
    above read memory with [v_load], which has no such condition (they say
    what the function computes when its loads are unaligned loads).  The
    definitions below are the same function with the aligned loads of the
    source; [addr] is the address that [data] holds at entry, and offsets
    are relative to it as before. *)

Inductive outcome :=
| Returned (r : Z)   (* the function returns [r] *)
| Faulted.           (* a load at an address that is no multiple of 32 *)

Definition aligned_load (addr : Z) (mem : memory) (off : Z) : option vec_t :=
  if (addr + off) mod 32 =? 0 then Some (fst (v_load mem off)) else None.

(** The body of the chunk loop; [None] is a faulting load (line 155 or
    line 221). *)
Definition chunk_body_at (addr : Z) (mem : memory) (data : Z)
    (last_cont : Z) (next_bytes : vec_t) : option iter_result :=
  match aligned_load addr mem data with
  | None => None
  | Some bytes =>
      let high := uint32 (_mm256_movemask_epi8 bytes) in
      if Z.lor high last_cont =? 0 then Some Skip
      else
        let m := cont_masks add64 bytes high last_cont in
        if negb (m_cont m =? uint32 (m_req m)) then Some Reject
        else
          let shifted_bytes := next_bytes in
          let '(e_12, e_3) := error_vec bytes shifted_bytes in
          if _mm256_testz_si256 e_12 e_3 =? 0 then Some Reject
          else
            let last_cont := uint32 (Z.shiftr (m_req m) 32) in
            match aligned_load addr mem (data + 31) with
            | None => None
            | Some next_bytes => Some (Pass last_cont next_bytes)
            end
  end.

Equations? chunk_loop_at (addr : Z) (mem : memory) (data len : Z)
    (last_cont : Z) (next_bytes : vec_t) : outcome
    by wf (Z.to_nat len) lt :=
  chunk_loop_at addr mem data len last_cont next_bytes with Z_gt_dec len 0 => {
    | right _ := Returned (Z.b2z (last_cont =? 0));
    | left _ :=
        match chunk_body_at addr mem data last_cont next_bytes with
        | None => Faulted
        | Some Reject => Returned 0
        | Some Skip =>
            chunk_loop_at addr mem (data + 32) (len - 32) last_cont next_bytes
        | Some (Pass last_cont' next_bytes') =>
            chunk_loop_at addr mem (data + 32) (len - 32) last_cont' next_bytes'
        end }.
Proof. all: lia. Qed.

(** [z_validate_utf8] called with [data = addr]. *)
Definition z_validate_utf8_at (addr : Z) (mem : memory) (len : Z) : outcome :=
  let last_cont := 0 in
  match aligned_load addr mem 0 with
  | None => Faulted
  | Some first =>
      let next_bytes := v_shift_left first (_mm256_set1_epi8 0) in
      chunk_loop_at addr mem 0 len last_cont next_bytes
  end.
(** ** Basic facts: vectors, loads, the loop *)


Lemma chunk_loop_eq merge mem data len last_cont next_bytes :
  chunk_loop merge mem data len last_cont next_bytes =
  if len >? 0 then
    match chunk_body merge mem data last_cont next_bytes with
    | (Reject, rd) => (0, rd)
    | (Skip, rd) =>
        let '(r, rd') :=
          chunk_loop merge mem (data + 32) (len - 32) last_cont next_bytes in
        (r, rd ++ rd')
    | (Pass last_cont' next_bytes', rd) =>
        let '(r, rd') :=
          chunk_loop merge mem (data + 32) (len - 32) last_cont' next_bytes' in
        (r, rd ++ rd')
    end
  else (Z.b2z (last_cont =? 0), []).
Proof.
  rewrite chunk_loop_equation_1.
  destruct (Z_gt_dec len 0); destruct (len >? 0) eqn:E; try lia; reflexivity.
Qed.

Lemma mk_vec_length f : length (mk_vec f) = 32%nat.
Proof. unfold mk_vec. now rewrite length_map, length_seq. Qed.

Lemma lane_mk_vec f i : (i < 32)%nat -> lane (mk_vec f) i = f i.
Proof.
  intros Hi. unfold lane, mk_vec.
  rewrite (nth_indep _ 0 (f 0%nat)) by (rewrite length_map, length_seq; exact Hi).
  rewrite map_nth, seq_nth by exact Hi. reflexivity.
Qed.

Lemma mk_vec_ext f g :
  (forall i, (i < 32)%nat -> f i = g i) -> mk_vec f = mk_vec g.
Proof.
  intros H. unfold mk_vec. apply map_ext_in. intros i Hi.
  apply in_seq in Hi. apply H. lia.
Qed.

Lemma vec_eta v : length v = 32%nat -> v = mk_vec (lane v).
Proof.
  intros Hv. apply (nth_ext _ _ 0 0).
  - now rewrite mk_vec_length.
  - intros i Hi. rewrite Hv in Hi.
    change (lane v i = lane (mk_vec (lane v)) i). now rewrite lane_mk_vec.
Qed.

Lemma byte_val_range b : 0 <= byte_val b < 256.
Proof.
  unfold byte_val. pose proof (Byte.to_N_bounded b) as H. lia.
Qed.

Lemma v_load_lane mem off i :
  (i < 32)%nat -> lane (fst (v_load mem off)) i = byte_val (mem (off + Z.of_nat i)).
Proof. intros Hi. unfold v_load. simpl. now rewrite lane_mk_vec. Qed.

Lemma v_load_length mem off : length (fst (v_load mem off)) = 32%nat.
Proof. apply mk_vec_length. Qed.

Lemma v_load_ext mem1 mem2 off :
  (forall i, off <= i < off + 32 -> mem1 i = mem2 i) ->
  v_load mem1 off = v_load mem2 off.
Proof.
  intros H. unfold v_load. f_equal. apply mk_vec_ext. intros i Hi.
  rewrite H by lia. reflexivity.
Qed.

Lemma in_span off o : In o (span off) <-> off <= o < off + 32.
Proof.
  unfold span. rewrite in_map_iff. split.
  - intros (i & <- & Hi). apply in_seq in Hi. lia.
  - intros Ho. exists (Z.to_nat (o - off)). split; [lia|]. apply in_seq. lia.
Qed.

(** [v_shift_left top bottom] is [top] moved up by one lane, with the last
    lane of [bottom] entering at lane 0. *)
Lemma v_shift_left_lane top bottom i :
  (i < 32)%nat ->
  lane (v_shift_left top bottom) i =
  match i with O => lane bottom 31 | S j => lane top j end.
Proof.
  intros Hi. unfold v_shift_left, _mm256_alignr_epi8.
  rewrite lane_mk_vec by exact Hi.
  do 32 (destruct i as [|i]; [reflexivity|]). lia.
Qed.

Lemma chunks_nonpos len : len <= 0 -> chunks len = 0%nat.
Proof.
  intros H. unfold chunks.
  assert ((len + 31) / 32 < 1) by (apply Z.div_lt_upper_bound; lia). lia.
Qed.

Lemma chunks_pos len : 0 < len -> chunks len = S (chunks (len - 32)).
Proof.
  intros H. unfold chunks.
  assert (E : (len + 31) / 32 = (len - 32 + 31) / 32 + 1).
  { rewrite <- Z.div_add by lia. f_equal. lia. }
  rewrite E.
  assert (0 <= (len - 32 + 31) / 32) by (apply Z.div_pos; lia). lia.
Qed.

Lemma state_at_None merge mem j m :
  state_at merge mem j = None -> state_at merge mem (j + m) = None.
Proof.
  intros H. induction m as [|m IH].
  - now rewrite Nat.add_0_r.
  - rewrite Nat.add_succ_r. simpl. now rewrite IH.
Qed.

Lemma chunk_loop_state_at merge mem n :
  forall j len last_cont next_bytes,
    chunks len = n ->
    state_at merge mem j = Some (last_cont, next_bytes) ->
    fst (chunk_loop merge mem (32 * Z.of_nat j) len last_cont next_bytes) =
    final (state_at merge mem (j + n)).
Proof.
  induction n as [|n IH]; intros j len lc nb Hn Hj.
  - rewrite chunk_loop_eq.
    assert (len <= 0).
    { destruct (Z_le_gt_dec len 0); [assumption|].
      rewrite chunks_pos in Hn by lia. discriminate. }
    destruct (len >? 0) eqn:E; [lia|].
    rewrite Nat.add_0_r, Hj. reflexivity.
  - assert (Hlen : 0 < len).
    { destruct (Z_le_gt_dec len 0); [|lia].
      rewrite chunks_nonpos in Hn by lia. discriminate. }
    rewrite chunks_pos in Hn by lia. injection Hn as Hn.
    rewrite chunk_loop_eq.
    destruct (len >? 0) eqn:E; [|lia].
    assert (HS : state_at merge mem (S j) =
                 match fst (chunk_body merge mem (32 * Z.of_nat j) lc nb) with
                 | Reject => None
                 | Skip => Some (lc, nb)
                 | Pass lc' nb' => Some (lc', nb')
                 end).
    { simpl state_at. rewrite Hj. reflexivity. }
    replace (32 * Z.of_nat j + 32) with (32 * Z.of_nat (S j)) by lia.
    replace (j + S n)%nat with (S j + n)%nat by lia.
    destruct (chunk_body merge mem (32 * Z.of_nat j) lc nb) as [[| |lc' nb'] rd];
      simpl in HS.
    + specialize (IH (S j) (len - 32) lc nb Hn HS).
      destruct (chunk_loop merge mem (32 * Z.of_nat (S j)) (len - 32) lc nb).
      exact IH.
    + rewrite (state_at_None _ _ (S j) n HS). reflexivity.
    + specialize (IH (S j) (len - 32) lc' nb' Hn HS).
      destruct (chunk_loop merge mem (32 * Z.of_nat (S j)) (len - 32) lc' nb').
      exact IH.
Qed.

Lemma validate_with_final merge mem len :
  fst (validate_with merge mem len) = final (state_at merge mem (chunks len)).
Proof.
  unfold validate_with.
  pose proof (chunk_loop_state_at merge mem (chunks len) 0 len 0
                (v_shift_left (fst (v_load mem 0)) (_mm256_set1_epi8 0))
                eq_refl eq_refl) as H.
  simpl (32 * Z.of_nat 0) in H. simpl (0 + chunks len)%nat in H.
  destruct (v_load mem 0) as [first rd]. simpl fst in H.
  destruct (chunk_loop merge mem 0 len 0 _) as [r rd'].
  exact H.
Qed.

Lemma verdict_final mem len :
  verdict mem len = final (state_at add64 mem (chunks len)).
Proof. apply validate_with_final. Qed.

(** *** Offsets read *)

Lemma chunk_body_reads merge mem data last_cont next_bytes o :
  In o (snd (chunk_body merge mem data last_cont next_bytes)) ->
  data <= o < data + 63.
Proof.
  unfold chunk_body, v_load.
  repeat match goal with
         | |- context [if ?c then _ else _] => destruct c
         | |- context [let '(_, _) := ?p in _] => destruct p
         end; simpl; rewrite ?in_app_iff, ?in_span; lia.
Qed.

Lemma chunk_loop_reads merge mem n :
  forall len data last_cont next_bytes o,
    chunks len = n ->
    In o (snd (chunk_loop merge mem data len last_cont next_bytes)) ->
    data <= o < data + 32 * Z.of_nat n + 31.
Proof.
  induction n as [|n IH]; intros len data lc nb o Hn; rewrite chunk_loop_eq.
  - assert (len <= 0).
    { destruct (Z_le_gt_dec len 0); [assumption|].
      rewrite chunks_pos in Hn by lia. discriminate. }
    destruct (len >? 0) eqn:E; [lia|]. simpl. tauto.
  - assert (Hlen : 0 < len).
    { destruct (Z_le_gt_dec len 0); [|lia].
      rewrite chunks_nonpos in Hn by lia. discriminate. }
    rewrite chunks_pos in Hn by lia. injection Hn as Hn.
    destruct (len >? 0) eqn:E; [|lia].
    pose proof (chunk_body_reads merge mem data lc nb) as Hb.
    destruct (chunk_body merge mem data lc nb) as [[| |lc' nb'] rd];
      simpl snd in Hb.
    + specialize (IH (len - 32) (data + 32) lc nb).
      destruct (chunk_loop merge mem (data + 32) (len - 32) lc nb) as [r rd'].
      simpl. rewrite in_app_iff. intros [Ho|Ho].
      * apply Hb in Ho. lia.
      * apply IH in Ho; [lia|exact Hn].
    + simpl. intros Ho. apply Hb in Ho. lia.
    + specialize (IH (len - 32) (data + 32) lc' nb').
      destruct (chunk_loop merge mem (data + 32) (len - 32) lc' nb') as [r rd'].
      simpl. rewrite in_app_iff. intros [Ho|Ho].
      * apply Hb in Ho. lia.
      * apply IH in Ho; [lia|exact Hn].
Qed.

Lemma reads_eq mem len :
  reads mem len =
  span 0 ++ snd (chunk_loop add64 mem 0 len 0
                   (v_shift_left (fst (v_load mem 0)) (_mm256_set1_epi8 0))).
Proof.
  unfold reads, z_validate_utf8, validate_with. simpl.
  destruct (chunk_loop add64 mem 0 len 0 _). reflexivity.
Qed.

(** *** The loop body through the vectors it loads *)

Lemma chunk_body_step merge mem data last_cont next_bytes :
  fst (chunk_body merge mem data last_cont next_bytes) =
  chunk_step merge (fst (v_load mem data)) last_cont next_bytes
             (fst (v_load mem (data + 31))).
Proof.
  unfold chunk_body, chunk_step, v_load, error_vec. cbn [fst snd].
  repeat match goal with
         | |- context [if ?c then _ else _] => destruct c
         end; reflexivity.
Qed.

Lemma chunk_step_next merge bytes last_cont next_bytes x y :
  chunk_step merge bytes last_cont next_bytes y =
  match chunk_step merge bytes last_cont next_bytes x with
  | Pass c _ => Pass c y
  | r => r
  end.
Proof.
  unfold chunk_step.
  repeat match goal with
         | |- context [if ?c then _ else _] => destruct c
         end; reflexivity.
Qed.

Lemma state_at_S merge mem k :
  state_at merge mem (S k) =
  match state_at merge mem k with
  | None => None
  | Some (last_cont, next_bytes) =>
      match chunk_step merge (fst (v_load mem (32 * Z.of_nat k))) last_cont
                       next_bytes (fst (v_load mem (32 * Z.of_nat k + 31))) with
      | Reject => None
      | Skip => Some (last_cont, next_bytes)
      | Pass last_cont' next_bytes' => Some (last_cont', next_bytes')
      end
  end.
Proof.
  simpl. destruct (state_at merge mem k) as [[lc nb]|]; [|reflexivity].
  now rewrite chunk_body_step.
Qed.

(** The loop variables depend on the memory below the end of the last
    chunk only: [next_bytes] at the start of iteration [k] holds bytes up
    to offset [32 * k + 30]. *)
Lemma state_at_agree merge mem1 mem2 n :
  (forall i, 0 <= i < 32 * Z.of_nat n -> mem1 i = mem2 i) ->
  forall k, (k <= n)%nat ->
    ((k < n)%nat -> state_at merge mem1 k = state_at merge mem2 k) /\
    option_map fst (state_at merge mem1 k) = option_map fst (state_at merge mem2 k).
Proof.
  intros Hag. induction k as [|k IH]; intros Hk.
  - split; [|reflexivity]. intros H0. cbn [state_at].
    rewrite (v_load_ext mem1 mem2 0); [reflexivity|]. intros i Hi. apply Hag. lia.
  - destruct IH as [IH _]; [lia|]. specialize (IH ltac:(lia)).
    rewrite !state_at_S, IH.
    destruct (state_at merge mem2 k) as [[lc nb]|]; [|split; reflexivity].
    rewrite (v_load_ext mem1 mem2 (32 * Z.of_nat k))
      by (intros i Hi; apply Hag; lia).
    split.
    + intros HS.
      rewrite (v_load_ext mem1 mem2 (32 * Z.of_nat k + 31))
        by (intros i Hi; apply Hag; lia).
      reflexivity.
    + rewrite (chunk_step_next merge _ lc nb
                 (fst (v_load mem2 (32 * Z.of_nat k + 31)))
                 (fst (v_load mem1 (32 * Z.of_nat k + 31)))).
      destruct (chunk_step merge _ lc nb (fst (v_load mem2 _))); reflexivity.
Qed.

Lemma final_fst s1 s2 :
  option_map fst s1 = option_map fst s2 -> final s1 = final s2.
Proof.
  destruct s1 as [[a x]|], s2 as [[b y]|]; simpl; intros H;
    try discriminate; [|reflexivity].
  injection H as ->. reflexivity.
Qed.

Lemma validate_with_agree merge mem1 mem2 len :
  (forall i, 0 <= i < 32 * Z.of_nat (chunks len) -> mem1 i = mem2 i) ->
  fst (validate_with merge mem1 len) = fst (validate_with merge mem2 len).
Proof.
  intros Hag. rewrite !validate_with_final. apply final_fst.
  apply (state_at_agree merge mem1 mem2 (chunks len) Hag). lia.
Qed.

(** ** Lane-wise behaviour of the intrinsics *)

Lemma forallb_zrange (P : Z -> bool) n :
  forallb P (zrange n) = true ->
  forall x, 0 <= x < Z.of_nat n -> P x = true.
Proof.
  intros H x Hx. rewrite forallb_forall in H. apply H.
  unfold zrange. apply in_map_iff. exists (Z.to_nat x). split; [lia|].
  apply in_seq. lia.
Qed.


Lemma v_load_bytes mem off : bytes_vec (fst (v_load mem off)).
Proof.
  split; [apply v_load_length|]. intros i Hi.
  rewrite v_load_lane by exact Hi. apply byte_val_range.
Qed.

Lemma even_half i : Nat.even i = true -> (2 * (i / 2) = i)%nat.
Proof.
  intros E. apply Nat.even_spec in E. destruct E as [m ->].
  replace (2 * m / 2)%nat with m; [lia|].
  apply (Nat.div_unique _ 2 m 0); lia.
Qed.

Lemma odd_half i : Nat.even i = false -> (2 * (i / 2) + 1 = i)%nat.
Proof.
  intros E. assert (O : Nat.odd i = true) by (unfold Nat.odd; now rewrite E).
  apply Nat.odd_spec in O. destruct O as [m ->].
  replace ((2 * m + 1) / 2)%nat with m; [lia|].
  apply (Nat.div_unique _ 2 m 1); lia.
Qed.

Lemma lane_of_words16 w i :
  (i < 32)%nat ->
  lane (of_words16 w) i =
  if Nat.even i then w (i / 2)%nat mod 256 else (w (i / 2)%nat / 256) mod 256.
Proof. intros Hi. unfold of_words16. now rewrite lane_mk_vec. Qed.

(** The 16-bit word around lane [i], seen from lane [i]: the partner byte
    is the other half of the word. *)
Lemma word16_even v i :
  Nat.even i = true -> word16 v (i / 2) = lane v i + 256 * lane v (i + 1).
Proof.
  intros E. unfold word16. rewrite (even_half i E).
  reflexivity.
Qed.

Lemma word16_odd v i :
  Nat.even i = false -> word16 v (i / 2) = lane v (i - 1) + 256 * lane v i.
Proof.
  intros E. unfold word16. pose proof (odd_half i E) as H.
  replace (2 * (i / 2))%nat with (i - 1)%nat by lia.
  replace (i - 1 + 1)%nat with i by lia. reflexivity.
Qed.

Lemma slli_bits_check :
  forallb (fun x => forallb (fun y => forallb (fun n =>
    Bool.eqb (Z.testbit ((Z.shiftl (x + 256 * y) n mod 2 ^ 16) mod 256) 7)
             (Z.testbit x (7 - n)) &&
    Bool.eqb (Z.testbit (((Z.shiftl (x + 256 * y) n mod 2 ^ 16) / 256) mod 256) 7)
             (Z.testbit y (7 - n)))
    [1; 2; 3]) (zrange 256)) (zrange 256) = true.
Proof. vm_compute. reflexivity. Qed.

Lemma slli_top_bit v n i :
  bytes_vec v -> (i < 32)%nat -> n = 1 \/ n = 2 \/ n = 3 ->
  Z.testbit (lane (_mm256_slli_epi16 v n) i) 7 = Z.testbit (lane v i) (7 - n).
Proof.
  intros [Hl Hv] Hi Hn. unfold _mm256_slli_epi16.
  rewrite lane_of_words16 by exact Hi.
  assert (E15 : (n >? 15) = false) by lia. rewrite E15.
  assert (Hin : In n [1; 2; 3]) by (simpl; lia).
  destruct (Nat.even i) eqn:E.
  - rewrite (word16_even v i E).
    assert (Hp : 0 <= lane v (i + 1) < 256).
    { destruct (Nat.lt_ge_cases (i + 1) 32) as [H|H]; [now apply Hv|].
      unfold lane. rewrite nth_overflow by lia. lia. }
    pose proof (forallb_zrange _ _ slli_bits_check (lane v i) (Hv i Hi)) as H1.
    cbv beta in H1.
    pose proof (forallb_zrange _ _ H1 (lane v (i + 1)) Hp) as H2.
    cbv beta in H2. rewrite forallb_forall in H2. specialize (H2 n Hin).
    apply andb_true_iff in H2. destruct H2 as [H2 _].
    now apply Bool.eqb_prop in H2.
  - rewrite (word16_odd v i E).
    assert (i <> 0)%nat by (intros ->; discriminate).
    pose proof (forallb_zrange _ _ slli_bits_check (lane v (i - 1))
                  (Hv (i - 1)%nat ltac:(lia))) as H1.
    cbv beta in H1.
    pose proof (forallb_zrange _ _ H1 (lane v i) (Hv i Hi)) as H2.
    cbv beta in H2. rewrite forallb_forall in H2. specialize (H2 n Hin).
    apply andb_true_iff in H2. destruct H2 as [_ H2].
    now apply Bool.eqb_prop in H2.
Qed.

Lemma srli_nibble_check :
  forallb (fun x => forallb (fun y =>
    (Z.land ((Z.shiftr (x + 256 * y) 4) mod 256) (0x0F mod 256) =? x / 16) &&
    (Z.land (((Z.shiftr (x + 256 * y) 4) / 256) mod 256) (0x0F mod 256) =? y / 16) &&
    (Z.land x (0x0F mod 256) =? x mod 16))
    (zrange 256)) (zrange 256) = true.
Proof. vm_compute. reflexivity. Qed.

Lemma lane_mask_0F i : (i < 32)%nat -> lane mask_0F i = 0x0F mod 256.
Proof. intros Hi. unfold mask_0F, _mm256_set1_epi8. now rewrite lane_mk_vec. Qed.

(** [m_1] and [m_3]: the high nibble of every byte. *)
Lemma high_nibble_lane v i :
  bytes_vec v -> (i < 32)%nat ->
  lane (_mm256_and_si256 (_mm256_srli_epi16 v 4) mask_0F) i = lane v i / 16.
Proof.
  intros [Hl Hv] Hi. unfold _mm256_and_si256.
  rewrite lane_mk_vec, lane_mask_0F by exact Hi.
  unfold _mm256_srli_epi16. rewrite lane_of_words16 by exact Hi.
  change (4 >? 15) with false. cbv iota.
  destruct (Nat.even i) eqn:E.
  - rewrite (word16_even v i E).
    assert (Hp : 0 <= lane v (i + 1) < 256).
    { destruct (Nat.lt_ge_cases (i + 1) 32) as [H|H]; [now apply Hv|].
      unfold lane. rewrite nth_overflow by lia. lia. }
    pose proof (forallb_zrange _ _ srli_nibble_check (lane v i) (Hv i Hi)) as H1.
    cbv beta in H1.
    pose proof (forallb_zrange _ _ H1 (lane v (i + 1)) Hp) as H2.
    cbv beta in H2. apply andb_true_iff in H2. destruct H2 as [H2 _].
    apply andb_true_iff in H2. destruct H2 as [H2 _]. now apply Z.eqb_eq in H2.
  - rewrite (word16_odd v i E).
    assert (i <> 0)%nat by (intros ->; discriminate).
    pose proof (forallb_zrange _ _ srli_nibble_check (lane v (i - 1))
                  (Hv (i - 1)%nat ltac:(lia))) as H1.
    cbv beta in H1.
    pose proof (forallb_zrange _ _ H1 (lane v i) (Hv i Hi)) as H2.
    cbv beta in H2. apply andb_true_iff in H2. destruct H2 as [H2 _].
    apply andb_true_iff in H2. destruct H2 as [_ H2]. now apply Z.eqb_eq in H2.
Qed.

(** [m_2]: the low nibble of every byte. *)
Lemma low_nibble_lane v i :
  bytes_vec v -> (i < 32)%nat ->
  lane (_mm256_and_si256 v mask_0F) i = lane v i mod 16.
Proof.
  intros [Hl Hv] Hi. unfold _mm256_and_si256.
  rewrite lane_mk_vec, lane_mask_0F by exact Hi.
  pose proof (forallb_zrange _ _ srli_nibble_check (lane v i) (Hv i Hi)) as H1.
  cbv beta in H1.
  pose proof (forallb_zrange _ _ H1 0 ltac:(lia)) as H2.
  cbv beta in H2. apply andb_true_iff in H2. destruct H2 as [_ H2].
  now apply Z.eqb_eq in H2.
Qed.

Lemma shuffle_check tbl :
  length tbl = 16%nat ->
  forallb (fun b => (0 <=? b) && (b <? 256)) tbl = true ->
  forall i k, (i < 32)%nat -> 0 <= k < 16 ->
    (if Z.testbit k 7 then 0
     else lane (LOOKUP16 tbl) (16 * (i / 16) + Z.to_nat (Z.land k 15))) =
    nth (Z.to_nat k) tbl 0.
Proof.
  intros Hl Hb i k Hi Hk.
  assert (Hk7 : Z.testbit k 7 = false).
  { apply (forallb_zrange (fun k => negb (Z.testbit k 7)) 16) in Hk;
      [now apply negb_true_iff in Hk | vm_compute; reflexivity]. }
  assert (Hk15 : Z.land k 15 = k).
  { apply (forallb_zrange (fun k => Z.land k 15 =? k) 16) in Hk;
      [now apply Z.eqb_eq in Hk | vm_compute; reflexivity]. }
  rewrite Hk7, Hk15.
  assert (Hd : (i / 16 < 2)%nat) by (apply Nat.Div0.div_lt_upper_bound; lia).
  unfold LOOKUP16, _mm256_setr_epi8. rewrite lane_mk_vec by lia.
  assert (Hnth : nth (16 * (i / 16) + Z.to_nat k) (tbl ++ tbl) 0 =
                 nth (Z.to_nat k) tbl 0).
  { destruct (i / 16)%nat as [|[|d]]; [| |lia].
    - simpl (16 * 0 + _)%nat. apply app_nth1. lia.
    - rewrite app_nth2 by lia. f_equal. lia. }
  rewrite Hnth.
  rewrite forallb_forall in Hb.
  assert (Hin : In (nth (Z.to_nat k) tbl 0) tbl) by (apply nth_In; lia).
  apply Hb in Hin. apply Z.mod_small. lia.
Qed.

Lemma shuffle_lane tbl m i :
  length tbl = 16%nat ->
  forallb (fun b => (0 <=? b) && (b <? 256)) tbl = true ->
  (i < 32)%nat -> 0 <= lane m i < 16 ->
  lane (_mm256_shuffle_epi8 (LOOKUP16 tbl) m) i = nth (Z.to_nat (lane m i)) tbl 0.
Proof.
  intros Hl Hb Hi Hm. unfold _mm256_shuffle_epi8.
  rewrite lane_mk_vec by exact Hi. now apply shuffle_check.
Qed.

(** Lane [i] of the final error vector is the AND of the three lookups
    for the pair (shifted byte, current byte). *)
Lemma error_vec_lane bytes shifted i :
  bytes_vec bytes -> bytes_vec shifted -> (i < 32)%nat ->
  Z.land (lane (fst (error_vec bytes shifted)) i)
         (lane (snd (error_vec bytes shifted)) i) =
  err_bits (lane shifted i) (lane bytes i).
Proof.
  intros Hb Hs Hi. unfold error_vec. cbn [fst snd].
  assert (Hbi := proj2 Hb i Hi). assert (Hsi := proj2 Hs i Hi).
  unfold _mm256_and_si256 at 1. rewrite lane_mk_vec by exact Hi.
  unfold error_1, error_2, error_3.
  rewrite !shuffle_lane; try reflexivity; try exact Hi;
    rewrite ?high_nibble_lane, ?low_nibble_lane by assumption.
  - reflexivity.
  - split; [apply Z.div_pos; lia | apply Z.div_lt_upper_bound; lia].
  - apply Z.mod_pos_bound. lia.
  - split; [apply Z.div_pos; lia | apply Z.div_lt_upper_bound; lia].
Qed.

Lemma err_bits_disallowed_check :
  forallb (fun n1 => forallb (fun n2 => forallb (fun n3 =>
    Bool.eqb (negb (Z.land (Z.land (nth (Z.to_nat n1) error_1_table 0)
                                   (nth (Z.to_nat n2) error_2_table 0))
                           (nth (Z.to_nat n3) error_3_table 0) =? 0))
             (disallowedb n1 n2 n3))
    (zrange 16)) (zrange 16)) (zrange 16) = true.
Proof. vm_compute. reflexivity. Qed.

Lemma disallowedb_spec n1 n2 n3 : disallowedb n1 n2 n3 = true <-> disallowed n1 n2 n3.
Proof. unfold disallowedb, disallowed. lia. Qed.

Lemma err_bits_disallowed prev cur :
  0 <= prev < 256 -> 0 <= cur < 256 ->
  (err_bits prev cur <> 0 <-> disallowed (prev / 16) (prev mod 16) (cur / 16)).
Proof.
  intros Hp Hc. rewrite <- disallowedb_spec. unfold err_bits.
  assert (H1 : 0 <= prev / 16 < Z.of_nat 16)
    by (split; [apply Z.div_pos; lia | apply Z.div_lt_upper_bound; lia]).
  assert (H2 : 0 <= prev mod 16 < Z.of_nat 16) by (apply Z.mod_pos_bound; lia).
  assert (H3 : 0 <= cur / 16 < Z.of_nat 16)
    by (split; [apply Z.div_pos; lia | apply Z.div_lt_upper_bound; lia]).
  pose proof (forallb_zrange _ _ err_bits_disallowed_check _ H1) as C1.
  cbv beta in C1.
  pose proof (forallb_zrange _ _ C1 _ H2) as C2. cbv beta in C2.
  pose proof (forallb_zrange _ _ C2 _ H3) as C3. cbv beta in C3.
  apply Bool.eqb_prop in C3. rewrite <- C3.
  rewrite negb_true_iff, Z.eqb_neq. reflexivity.
Qed.

(** ** Masks *)

Lemma bytes_vecb_spec v : bytes_vecb v = true -> bytes_vec v.
Proof.
  unfold bytes_vecb, bytes_vec. intros H. apply andb_true_iff in H.
  destruct H as [Hl Hb]. apply Nat.eqb_eq in Hl. split; [exact Hl|].
  intros i Hi. rewrite forallb_forall in Hb.
  assert (Hin : In (lane v i) v) by (apply nth_In; lia).
  apply Hb in Hin. lia.
Qed.

Lemma bytes_vec_Forall v : bytes_vec v -> Forall (fun b => 0 <= b < 256) v.
Proof.
  intros [Hl Hv]. apply Forall_forall. intros b Hb.
  apply (In_nth _ _ 0) in Hb. destruct Hb as (i & Hi & <-).
  apply Hv. lia.
Qed.

Lemma mask_of_range f l : 0 <= mask_of f l < 2 ^ Z.of_nat (length l).
Proof.
  induction l as [|b l IH]; [simpl; lia|].
  cbn [mask_of length]. rewrite Nat2Z.inj_succ, Z.pow_succ_r by lia.
  destruct (f b); simpl Z.b2z; lia.
Qed.

Lemma mask_of_ext f g l :
  Forall (fun b => f b = g b) l -> mask_of f l = mask_of g l.
Proof.
  induction 1 as [|b l Hb _ IH]; [reflexivity|].
  cbn [mask_of]. now rewrite Hb, IH.
Qed.

Lemma mask_of_map_ext f f' (g g' : nat -> Z) l :
  (forall i, In i l -> f (g i) = f' (g' i)) ->
  mask_of f (map g l) = mask_of f' (map g' l).
Proof.
  induction l as [|i l IH]; intros H; [reflexivity|].
  cbn [map mask_of]. rewrite H by (now left). rewrite IH; [reflexivity|].
  intros j Hj. apply H. now right.
Qed.

Lemma top_bits_mask l : top_bits l = mask_of (fun b => Z.testbit b 7) l.
Proof. induction l as [|b l IH]; [reflexivity|]. cbn. now rewrite IH. Qed.

Lemma uint32_int32 x : 0 <= x < 2 ^ 32 -> uint32 (int32 x) = x.
Proof.
  intros H. unfold uint32, int32.
  change (2 ^ 32) with 4294967296 in *. change (2 ^ 31) with 2147483648.
  Z.div_mod_to_equations. lia.
Qed.

Lemma movemask_mask v f :
  bytes_vec v ->
  (forall b, 0 <= b < 256 -> Z.testbit b 7 = f b) ->
  uint32 (_mm256_movemask_epi8 v) = mask_of f v.
Proof.
  intros Hv Hf. unfold _mm256_movemask_epi8.
  rewrite uint32_int32.
  - rewrite top_bits_mask. apply mask_of_ext.
    eapply Forall_impl; [|apply bytes_vec_Forall, Hv]. exact Hf.
  - rewrite top_bits_mask.
    pose proof (mask_of_range (fun b => Z.testbit b 7) v) as H.
    rewrite (proj1 Hv) in H. exact H.
Qed.

Lemma slli_bytes_vec v n : bytes_vec (_mm256_slli_epi16 v n).
Proof.
  unfold _mm256_slli_epi16. split; [apply mk_vec_length|].
  intros i Hi. rewrite lane_of_words16 by exact Hi.
  destruct (Nat.even i); apply Z.mod_pos_bound; lia.
Qed.

Lemma movemask_slli v n f :
  bytes_vec v -> n = 1 \/ n = 2 \/ n = 3 ->
  (forall b, 0 <= b < 256 -> Z.testbit b (7 - n) = f b) ->
  uint32 (_mm256_movemask_epi8 (_mm256_slli_epi16 v n)) = mask_of f v.
Proof.
  intros Hv Hn Hf.
  rewrite (movemask_mask _ (fun b => Z.testbit b 7));
    [|apply slli_bytes_vec|reflexivity].
  rewrite (vec_eta (_mm256_slli_epi16 v n)) by apply slli_bytes_vec.
  rewrite (vec_eta v) at 2 by apply Hv.
  unfold mk_vec. apply mask_of_map_ext. intros i Hi. apply in_seq in Hi.
  rewrite slli_top_bit by (assumption || lia).
  apply Hf. apply Hv. lia.
Qed.

Lemma testbit_cons (a : bool) x n :
  0 <= n ->
  Z.testbit (Z.b2z a + 2 * x) n = if n =? 0 then a else Z.testbit x (n - 1).
Proof.
  intros Hn. rewrite Z.add_comm. destruct (Z.eqb_spec n 0) as [->|Hne].
  - apply Z.testbit_0_r.
  - replace n with (Z.succ (n - 1)) at 1 by lia.
    apply Z.testbit_succ_r. lia.
Qed.

Lemma land_cons a b x y :
  Z.land (Z.b2z a + 2 * x) (Z.b2z b + 2 * y) = Z.b2z (a && b) + 2 * Z.land x y.
Proof.
  apply Z.bits_inj'. intros n Hn.
  rewrite Z.land_spec, !testbit_cons by exact Hn.
  destruct (n =? 0); [reflexivity|]. now rewrite Z.land_spec.
Qed.

Lemma lxor_cons a b x y :
  Z.lxor (Z.b2z a + 2 * x) (Z.b2z b + 2 * y) = Z.b2z (xorb a b) + 2 * Z.lxor x y.
Proof.
  apply Z.bits_inj'. intros n Hn.
  rewrite Z.lxor_spec, !testbit_cons by exact Hn.
  destruct (n =? 0); [reflexivity|]. now rewrite Z.lxor_spec.
Qed.

Lemma lor_cons a b x y :
  Z.lor (Z.b2z a + 2 * x) (Z.b2z b + 2 * y) = Z.b2z (a || b) + 2 * Z.lor x y.
Proof.
  apply Z.bits_inj'. intros n Hn.
  rewrite Z.lor_spec, !testbit_cons by exact Hn.
  destruct (n =? 0); [reflexivity|]. now rewrite Z.lor_spec.
Qed.

Lemma mask_of_land f g l :
  Z.land (mask_of f l) (mask_of g l) = mask_of (fun b => f b && g b) l.
Proof.
  induction l as [|b l IH]; [reflexivity|].
  cbn [mask_of]. now rewrite land_cons, IH.
Qed.

Lemma mask_of_lxor f g l :
  Z.lxor (mask_of f l) (mask_of g l) = mask_of (fun b => xorb (f b) (g b)) l.
Proof.
  induction l as [|b l IH]; [reflexivity|].
  cbn [mask_of]. now rewrite lxor_cons, IH.
Qed.

(** The byte classes in terms of the top four bits. *)
Lemma class_bits_check :
  forallb (fun b =>
    Bool.eqb (Z.testbit b 7) (is_high b) &&
    Bool.eqb (is_high b && Z.testbit b 6) (lead1 b) &&
    Bool.eqb (lead1 b && Z.testbit b 5) (lead2 b) &&
    Bool.eqb (lead2 b && Z.testbit b 4) (lead3 b) &&
    Bool.eqb (xorb (is_high b) (lead1 b)) (is_cont b))
    (zrange 256) = true.
Proof. vm_compute. reflexivity. Qed.

Lemma class_bits b :
  0 <= b < 256 ->
  Z.testbit b 7 = is_high b /\
  is_high b && Z.testbit b 6 = lead1 b /\
  lead1 b && Z.testbit b 5 = lead2 b /\
  lead2 b && Z.testbit b 4 = lead3 b /\
  xorb (is_high b) (lead1 b) = is_cont b.
Proof.
  intros Hb. pose proof (forallb_zrange _ _ class_bits_check b Hb) as H.
  cbv beta in H. rewrite !andb_true_iff in H.
  destruct H as ((((H1 & H2) & H3) & H4) & H5).
  repeat split; now apply Bool.eqb_prop.
Qed.

Lemma high_mask bytes :
  bytes_vec bytes -> uint32 (_mm256_movemask_epi8 bytes) = mask_of is_high bytes.
Proof.
  intros Hv. apply movemask_mask; [exact Hv|]. intros b Hb. apply class_bits, Hb.
Qed.

Lemma shifted_mask n x :
  0 <= x < 2 ^ 32 -> n = 1 \/ n = 2 \/ n = 3 ->
  uint64 (Z.shiftl x n) = 2 ^ n * x.
Proof.
  intros Hx Hn. unfold uint64. rewrite Z.shiftl_mul_pow2 by lia.
  rewrite Z.mod_small; [lia|].
  change (2 ^ 32) with 4294967296 in Hx. change (2 ^ 64) with 18446744073709551616.
  destruct Hn as [-> | [-> | ->]]; lia.
Qed.

(** The masks the inner loop leaves behind. *)
Lemma cont_masks_spec merge bytes last_cont :
  bytes_vec bytes ->
  let m := cont_masks merge bytes (mask_of is_high bytes) last_cont in
  m_cont m = mask_of is_cont bytes /\ m_req m = req_of merge last_cont bytes.
Proof.
  intros Hv.
  assert (HF := bytes_vec_Forall bytes Hv).
  assert (H32 : forall f, 0 <= mask_of f bytes < 2 ^ 32).
  { intros f. pose proof (mask_of_range f bytes) as H.
    now rewrite (proj1 Hv) in H. }
  assert (E1 : Z.land (mask_of is_high bytes)
                 (uint32 (_mm256_movemask_epi8 (_mm256_slli_epi16 bytes 1))) =
               mask_of lead1 bytes).
  { rewrite (movemask_slli bytes 1 (fun b => Z.testbit b 6)); auto.
    rewrite mask_of_land. apply mask_of_ext.
    eapply Forall_impl; [|exact HF]. intros b Hb. apply class_bits, Hb. }
  assert (E2 : Z.land (mask_of lead1 bytes)
                 (uint32 (_mm256_movemask_epi8 (_mm256_slli_epi16 bytes 2))) =
               mask_of lead2 bytes).
  { rewrite (movemask_slli bytes 2 (fun b => Z.testbit b 5)); auto.
    rewrite mask_of_land. apply mask_of_ext.
    eapply Forall_impl; [|exact HF]. intros b Hb. apply class_bits, Hb. }
  assert (E3 : Z.land (mask_of lead2 bytes)
                 (uint32 (_mm256_movemask_epi8 (_mm256_slli_epi16 bytes 3))) =
               mask_of lead3 bytes).
  { rewrite (movemask_slli bytes 3 (fun b => Z.testbit b 4)); auto.
    rewrite mask_of_land. apply mask_of_ext.
    eapply Forall_impl; [|exact HF]. intros b Hb. apply class_bits, Hb. }
  unfold cont_masks, mask_round, req_of. cbn [fold_left m_set m_cont m_req].
  rewrite E1, E2, E3.
  change (1 =? 1) with true. change (2 =? 1) with false.
  change (3 =? 1) with false. cbv iota.
  rewrite !shifted_mask by auto.
  split; [|reflexivity].
  rewrite mask_of_lxor. unfold uint32.
  rewrite Z.mod_small by apply H32. apply mask_of_ext.
  eapply Forall_impl; [|exact HF]. intros b Hb. apply class_bits, Hb.
Qed.

(** ** The continuation check of a chunk is the byte-by-byte scan *)

Lemma odd_half_decomp o : o = Z.b2z (Z.odd o) + 2 * (o / 2).
Proof.
  pose proof (Z.div_mod o 2 ltac:(lia)) as H.
  rewrite Zmod_odd in H. destruct (Z.odd o); simpl Z.b2z; lia.
Qed.

Section Merge.

Variable merge : Z -> Z -> Z.
Hypothesis merge_0_r : forall x, merge x 0 = x.
Hypothesis merge_nonneg : forall x y, 0 <= x -> 0 <= y -> 0 <= merge x y.
Hypothesis merge_even : forall (a : bool) x y,
  merge (Z.b2z a + 2 * x) (2 * y) = Z.b2z a + 2 * merge x y.
Hypothesis merge_lead : forall h (s1 s2 s3 : bool) A B C,
  merge (merge (merge h (Z.b2z s1 + 2 * A)) (2 * (Z.b2z s2 + 2 * B)))
        (2 * (2 * (Z.b2z s3 + 2 * C))) =
  merge (merge (merge (merge h (Z.b2z s1 + 2 * (Z.b2z s2 + 2 * (Z.b2z s3 + 2 * 0))))
                      (2 * A)) (2 * (2 * B))) (2 * (2 * (2 * C))).

Lemma req_of_nil o : req_of merge o [] = o.
Proof. unfold req_of. cbn [mask_of]. now rewrite !merge_0_r. Qed.

Lemma req_of_cons o b l :
  req_of merge o (b :: l) =
  Z.b2z (Z.odd o) + 2 * req_of merge (merge (o / 2) (leader_bits b)) l.
Proof.
  unfold req_of, leader_bits. cbn [mask_of].
  rewrite (odd_half_decomp o) at 1.
  rewrite merge_even.
  replace (4 * (Z.b2z (lead2 b) + 2 * mask_of lead2 l))
    with (2 * (2 * (Z.b2z (lead2 b) + 2 * mask_of lead2 l))) by lia.
  rewrite merge_even.
  replace (8 * (Z.b2z (lead3 b) + 2 * mask_of lead3 l))
    with (2 * (2 * (2 * (Z.b2z (lead3 b) + 2 * mask_of lead3 l)))) by lia.
  rewrite merge_even, merge_lead.
  replace (2 * (2 * mask_of lead2 l)) with (4 * mask_of lead2 l) by lia.
  replace (2 * (2 * (2 * mask_of lead3 l))) with (8 * mask_of lead3 l) by lia.
  replace (Z.b2z (lead1 b) + 2 * (Z.b2z (lead2 b) + 2 * (Z.b2z (lead3 b) + 2 * 0)))
    with (Z.b2z (lead1 b) + 2 * Z.b2z (lead2 b) + 4 * Z.b2z (lead3 b)) by lia.
  reflexivity.
Qed.

Lemma req_of_nonneg o l : 0 <= o -> 0 <= req_of merge o l.
Proof.
  intros Ho. unfold req_of.
  pose proof (mask_of_range lead1 l). pose proof (mask_of_range lead2 l).
  pose proof (mask_of_range lead3 l).
  repeat apply merge_nonneg; lia.
Qed.

(** The scan passes exactly when the continuation mask equals the low
    bits of the required mask, and then ends in the bits above them. *)
Lemma scan_req l :
  forall o, 0 <= o ->
    scan merge o l =
    if mask_of is_cont l =? req_of merge o l mod 2 ^ Z.of_nat (length l)
    then Some (req_of merge o l / 2 ^ Z.of_nat (length l))
    else None.
Proof.
  induction l as [|b l IH]; intros o Ho.
  - rewrite req_of_nil. cbn [scan mask_of length Z.of_nat].
    rewrite Z.pow_0_r, Z.mod_1_r, Z.div_1_r. reflexivity.
  - cbn [scan mask_of length]. rewrite req_of_cons.
    assert (Ho' : 0 <= merge (o / 2) (leader_bits b)).
    { apply merge_nonneg; [apply Z.div_pos; lia|].
      unfold leader_bits.
      destruct (lead1 b), (lead2 b), (lead3 b); simpl; lia. }
    rewrite (IH _ Ho').
    set (X := req_of merge (merge (o / 2) (leader_bits b)) l).
    assert (HX : 0 <= X) by (apply req_of_nonneg; exact Ho').
    rewrite Nat2Z.inj_succ, Z.pow_succ_r by lia.
    set (P := 2 ^ Z.of_nat (length l)).
    assert (HP : 0 < P) by (apply Z.pow_pos_nonneg; lia).
    assert (Emod : (Z.b2z (Z.odd o) + 2 * X) mod (2 * P) =
                   Z.b2z (Z.odd o) + 2 * (X mod P)).
    { rewrite Z.rem_mul_r by lia.
      replace (Z.b2z (Z.odd o) + 2 * X) with (Z.b2z (Z.odd o) + X * 2) by lia.
      rewrite Z.mod_add, Z.div_add by lia.
      destruct (Z.odd o); simpl Z.b2z;
        rewrite (Z.mod_small _ 2), (Z.div_small _ 2) by lia; rewrite ?Z.add_0_l; lia. }
    assert (Ediv : (Z.b2z (Z.odd o) + 2 * X) / (2 * P) = X / P).
    { rewrite <- Z.div_div by lia.
      replace (Z.b2z (Z.odd o) + 2 * X) with (Z.b2z (Z.odd o) + X * 2) by lia.
      rewrite Z.div_add by lia.
      destruct (Z.odd o); simpl Z.b2z; rewrite (Z.div_small _ 2) by lia;
        rewrite ?Z.add_0_l; reflexivity. }
    rewrite Emod, Ediv.
    pose proof (Z.mod_pos_bound X P HP) as Hm.
    pose proof (mask_of_range is_cont l) as Hc.
    destruct (is_cont b), (Z.odd o); simpl Bool.eqb; simpl Z.b2z; cbv iota.
    + destruct (Z.eqb_spec (mask_of is_cont l) (X mod P)) as [E|E].
      * rewrite E, Z.eqb_refl. reflexivity.
      * destruct (Z.eqb_spec (1 + 2 * mask_of is_cont l) (1 + 2 * (X mod P)));
          [lia|reflexivity].
    + destruct (Z.eqb_spec (1 + 2 * mask_of is_cont l) (0 + 2 * (X mod P)));
        [lia|reflexivity].
    + destruct (Z.eqb_spec (0 + 2 * mask_of is_cont l) (1 + 2 * (X mod P)));
        [lia|reflexivity].
    + destruct (Z.eqb_spec (mask_of is_cont l) (X mod P)) as [E|E].
      * rewrite E, Z.eqb_refl. reflexivity.
      * destruct (Z.eqb_spec (0 + 2 * mask_of is_cont l) (0 + 2 * (X mod P)));
          [lia|reflexivity].
Qed.

End Merge.

Lemma testbit_cons_pos (a : bool) x n :
  0 < n -> Z.testbit (Z.b2z a + 2 * x) n = Z.testbit x (n - 1).
Proof.
  intros Hn. rewrite testbit_cons by lia.
  destruct (Z.eqb_spec n 0); [lia|reflexivity].
Qed.

Lemma testbit_double_pos x n :
  0 < n -> Z.testbit (2 * x) n = Z.testbit x (n - 1).
Proof. intros Hn. apply (testbit_cons_pos false x n Hn). Qed.

Lemma testbit_double_0 x : Z.testbit (2 * x) 0 = false.
Proof. apply (testbit_cons false x 0). lia. Qed.

Lemma testbit_cons_0 (a : bool) x : Z.testbit (Z.b2z a + 2 * x) 0 = a.
Proof. apply (testbit_cons a x 0). lia. Qed.

Lemma lor_lead h (s1 s2 s3 : bool) A B C :
  Z.lor (Z.lor (Z.lor h (Z.b2z s1 + 2 * A)) (2 * (Z.b2z s2 + 2 * B)))
        (2 * (2 * (Z.b2z s3 + 2 * C))) =
  Z.lor (Z.lor (Z.lor (Z.lor h (Z.b2z s1 + 2 * (Z.b2z s2 + 2 * (Z.b2z s3 + 2 * 0))))
                      (2 * A)) (2 * (2 * B))) (2 * (2 * (2 * C))).
Proof.
  apply Z.bits_inj'. intros n Hn. rewrite !Z.lor_spec.
  assert (Hc : n = 0 \/ n = 1 \/ n = 2 \/ 3 <= n) by lia.
  destruct Hc as [-> | [-> | [-> | H3]]].
  - rewrite !testbit_cons_0, !testbit_double_0.
    destruct (Z.testbit h 0), s1; reflexivity.
  - rewrite !(testbit_cons_pos _ _ 1), !(testbit_double_pos _ 1) by lia.
    change (1 - 1) with 0.
    rewrite !testbit_cons_0, !testbit_double_0.
    destruct (Z.testbit h 1), (Z.testbit A 0), s2; reflexivity.
  - rewrite !(testbit_cons_pos _ _ 2), !(testbit_double_pos _ 2) by lia.
    change (2 - 1) with 1.
    rewrite !(testbit_cons_pos _ _ 1), !(testbit_double_pos _ 1) by lia.
    change (1 - 1) with 0.
    rewrite !testbit_cons_0, ?testbit_double_0.
    destruct (Z.testbit h 2), (Z.testbit A 1), (Z.testbit B 0), s3; reflexivity.
  - rewrite !(testbit_cons_pos _ _ n), !(testbit_double_pos _ n) by lia.
    rewrite !(testbit_cons_pos _ _ (n - 1)), !(testbit_double_pos _ (n - 1)) by lia.
    rewrite !(testbit_cons_pos _ _ (n - 1 - 1)),
            !(testbit_double_pos _ (n - 1 - 1)) by lia.
    rewrite Z.testbit_0_l.
    destruct (Z.testbit h n), (Z.testbit A (n - 1)), (Z.testbit B (n - 1 - 1)),
      (Z.testbit C (n - 1 - 1 - 1)); reflexivity.
Qed.

Lemma scan_add_req l o :
  0 <= o ->
  scan Z.add o l =
  if mask_of is_cont l =? req_of Z.add o l mod 2 ^ Z.of_nat (length l)
  then Some (req_of Z.add o l / 2 ^ Z.of_nat (length l))
  else None.
Proof.
  apply scan_req; intros; lia.
Qed.

Lemma scan_lor_req l o :
  0 <= o ->
  scan Z.lor o l =
  if mask_of is_cont l =? req_of Z.lor o l mod 2 ^ Z.of_nat (length l)
  then Some (req_of Z.lor o l / 2 ^ Z.of_nat (length l))
  else None.
Proof.
  apply scan_req.
  - apply Z.lor_0_r.
  - intros x y Hx Hy. now apply Z.lor_nonneg.
  - intros a x y. rewrite <- (orb_false_r a) at 2. apply (lor_cons a false x y).
  - apply lor_lead.
Qed.

(** ** One chunk in scalar terms *)

Lemma forallb_ext_in {A} (f g : A -> bool) l :
  (forall x, In x l -> f x = g x) -> forallb f l = forallb g l.
Proof.
  induction l as [|x l IH]; intros H; [reflexivity|].
  cbn [forallb]. rewrite H by (now left). rewrite IH; [reflexivity|].
  intros y Hy. apply H. now right.
Qed.

Lemma testz_pairs_clean bytes shifted :
  bytes_vec bytes -> bytes_vec shifted ->
  (_mm256_testz_si256 (fst (error_vec bytes shifted))
                      (snd (error_vec bytes shifted)) =? 0) =
  negb (pairs_clean bytes shifted).
Proof.
  intros Hb Hs. unfold _mm256_testz_si256, pairs_clean.
  rewrite (forallb_ext_in _ (fun i => err_bits (lane shifted i) (lane bytes i) =? 0)).
  - destruct (forallb _ _); reflexivity.
  - intros i Hi. apply in_seq in Hi.
    rewrite error_vec_lane by (assumption || lia). reflexivity.
Qed.

Lemma lor_eqb_0 a b : (Z.lor a b =? 0) = (a =? 0) && (b =? 0).
Proof.
  destruct (Z.eqb_spec (Z.lor a b) 0) as [E|E].
  - apply Z.lor_eq_0_iff in E. destruct E as [-> ->]. reflexivity.
  - destruct (Z.eqb_spec a 0) as [->|]; [|reflexivity].
    destruct (Z.eqb_spec b 0) as [->|]; [|reflexivity].
    now elim E.
Qed.

Lemma lor_le_add a b : 0 <= a -> 0 <= b -> 0 <= Z.lor a b <= a + b.
Proof.
  intros Ha Hb. split; [now apply Z.lor_nonneg|].
  pose proof (Z.add_lor_land a b) as E.
  assert (0 <= Z.land a b) by (apply Z.land_nonneg; now left). lia.
Qed.

Lemma carry_ok_range o : carry_ok o -> 0 <= o < 2 ^ 32.
Proof. unfold carry_ok. change (2 ^ 32) with 4294967296. lia. Qed.

Section Chunk.

Variables (bytes : vec_t) (last_cont : Z).
Hypothesis Hbytes : bytes_vec bytes.
Hypothesis Hcarry : 0 <= last_cont < 2 ^ 32.

Lemma mask32 f : 0 <= mask_of f bytes < 4294967296.
Proof.
  pose proof (mask_of_range f bytes) as H.
  rewrite (proj1 Hbytes) in H. exact H.
Qed.

Lemma req_of_add64 : req_of add64 last_cont bytes = req_of Z.add last_cont bytes.
Proof.
  unfold req_of, add64, uint64.
  pose proof (mask32 lead1). pose proof (mask32 lead2). pose proof (mask32 lead3).
  change (2 ^ 32) with 4294967296 in Hcarry.
  change (2 ^ 64) with 18446744073709551616.
  rewrite (Z.mod_small (last_cont + 2 * mask_of lead1 bytes)) by lia.
  rewrite (Z.mod_small (last_cont + 2 * mask_of lead1 bytes +
                        4 * mask_of lead2 bytes)) by lia.
  apply Z.mod_small. lia.
Qed.

Lemma req_of_add_range : 0 <= req_of Z.add last_cont bytes < 2 ^ 36.
Proof.
  unfold req_of.
  pose proof (mask32 lead1). pose proof (mask32 lead2). pose proof (mask32 lead3).
  change (2 ^ 32) with 4294967296 in Hcarry.
  change (2 ^ 36) with 68719476736. lia.
Qed.

Lemma req_of_lor_range : 0 <= req_of Z.lor last_cont bytes < 2 ^ 36.
Proof.
  pose proof req_of_add_range as Ha. unfold req_of in *.
  pose proof (mask32 lead1). pose proof (mask32 lead2). pose proof (mask32 lead3).
  pose proof (lor_le_add last_cont (2 * mask_of lead1 bytes)
                ltac:(lia) ltac:(lia)) as L1.
  pose proof (lor_le_add _ (4 * mask_of lead2 bytes) (proj1 L1) ltac:(lia)) as L2.
  pose proof (lor_le_add _ (8 * mask_of lead3 bytes) (proj1 L2) ltac:(lia)) as L3.
  lia.
Qed.

Lemma carry_out X :
  0 <= X < 2 ^ 36 -> uint32 (Z.shiftr X 32) = X / 2 ^ Z.of_nat (length bytes).
Proof.
  intros HX. rewrite (proj1 Hbytes). unfold uint32.
  rewrite Z.shiftr_div_pow2 by lia. change (Z.of_nat 32) with 32.
  apply Z.mod_small. change (2 ^ 36) with 68719476736 in HX.
  change (2 ^ 32) with 4294967296.
  split; [apply Z.div_pos; lia | apply Z.div_lt_upper_bound; lia].
Qed.

Variables (next_bytes next : vec_t).
Hypothesis Hnext : bytes_vec next_bytes.

Lemma chunk_step_generic merge :
  (0 <= req_of merge last_cont bytes < 2 ^ 36) ->
  (scan merge last_cont bytes =
   if mask_of is_cont bytes =? req_of merge last_cont bytes mod 2 ^ Z.of_nat (length bytes)
   then Some (req_of merge last_cont bytes / 2 ^ Z.of_nat (length bytes))
   else None) ->
  chunk_step merge bytes last_cont next_bytes next =
  chunk_ref merge bytes last_cont next_bytes next.
Proof.
  intros HX Hscan. unfold chunk_step, chunk_ref.
  rewrite (high_mask bytes Hbytes), lor_eqb_0.
  destruct ((mask_of is_high bytes =? 0) && (last_cont =? 0)); [reflexivity|].
  destruct (cont_masks_spec merge bytes last_cont Hbytes) as [Ec Er].
  rewrite Ec, Er, Hscan, (testz_pairs_clean bytes next_bytes Hbytes Hnext).
  rewrite (carry_out _ HX). unfold uint32.
  rewrite (proj1 Hbytes). change (Z.of_nat 32) with 32.
  destruct (mask_of is_cont bytes =? req_of merge last_cont bytes mod 2 ^ 32);
    [|reflexivity].
  cbn [negb]. destruct (pairs_clean bytes next_bytes); reflexivity.
Qed.

Lemma chunk_step_add :
  chunk_step add64 bytes last_cont next_bytes next =
  chunk_ref Z.add bytes last_cont next_bytes next.
Proof.
  transitivity (chunk_step Z.add bytes last_cont next_bytes next).
  - unfold chunk_step.
    destruct (cont_masks_spec add64 bytes last_cont Hbytes) as [Ec Er].
    destruct (cont_masks_spec Z.add bytes last_cont Hbytes) as [Ec' Er'].
    rewrite (high_mask bytes Hbytes), Ec, Er, Ec', Er', req_of_add64.
    reflexivity.
  - apply chunk_step_generic; [apply req_of_add_range|].
    apply scan_add_req. lia.
Qed.

Lemma chunk_step_lor :
  chunk_step Z.lor bytes last_cont next_bytes next =
  chunk_ref Z.lor bytes last_cont next_bytes next.
Proof.
  apply chunk_step_generic; [apply req_of_lor_range|].
  apply scan_lor_req. lia.
Qed.

End Chunk.

(** *** The scan from a carry *)

Lemma class_cases b :
  (is_cont b = true /\ leader_bits b = 0) \/
  (is_cont b = false /\ carry_ok (leader_bits b)).
Proof.
  unfold is_cont, leader_bits, lead1, lead2, lead3, carry_ok.
  destruct (Z.leb_spec 128 b), (Z.ltb_spec b 192), (Z.leb_spec 192 b),
    (Z.leb_spec 224 b), (Z.leb_spec 240 b); simpl; lia.
Qed.

(** One step of the scan from a carry: it passes into a carry, and adding
    or ORing the new obligations is the same. *)
Lemma scan_step_carry o b :
  carry_ok o ->
  Bool.eqb (is_cont b) (Z.odd o) = true ->
  carry_ok (o / 2 + leader_bits b) /\
  Z.lor (o / 2) (leader_bits b) = o / 2 + leader_bits b /\
  (leader_bits b <> 0 -> o = 0).
Proof.
  intros Ho Hb.
  destruct (class_cases b) as [[Hc Hl]|[Hc Hl]]; rewrite Hc in Hb; rewrite ?Hl.
  - destruct Ho as [-> | [-> | [-> | ->]]]; try discriminate Hb;
      vm_compute; intuition congruence.
  - destruct Ho as [-> | [-> | [-> | ->]]]; try discriminate Hb.
    destruct Hl as [-> | [-> | [-> | ->]]]; vm_compute; intuition congruence.
Qed.

Lemma scan_carry_ok l :
  forall o o', carry_ok o -> scan Z.add o l = Some o' -> carry_ok o'.
Proof.
  induction l as [|b l IH]; intros o o' Ho H; cbn [scan] in H.
  - injection H as <-. exact Ho.
  - destruct (Bool.eqb (is_cont b) (Z.odd o)) eqn:E; [|discriminate].
    apply (IH _ _ (proj1 (scan_step_carry o b Ho E)) H).
Qed.

Lemma scan_lor_add l :
  forall o, carry_ok o -> scan Z.lor o l = scan Z.add o l.
Proof.
  induction l as [|b l IH]; intros o Ho; cbn [scan]; [reflexivity|].
  destruct (Bool.eqb (is_cont b) (Z.odd o)) eqn:E; [|reflexivity].
  destruct (scan_step_carry o b Ho E) as (Hc & Hl & _).
  rewrite Hl. apply IH, Hc.
Qed.

Lemma chunk_ref_lor_add bytes last_cont next_bytes next :
  carry_ok last_cont ->
  chunk_ref Z.lor bytes last_cont next_bytes next =
  chunk_ref Z.add bytes last_cont next_bytes next.
Proof. intros Hc. unfold chunk_ref. now rewrite scan_lor_add. Qed.

(** *** Invariants of the loop variables *)

Lemma shift_left_bytes top :
  bytes_vec top -> bytes_vec (v_shift_left top (_mm256_set1_epi8 0)).
Proof.
  intros [Hl Hv]. split; [apply mk_vec_length|].
  intros i Hi. rewrite v_shift_left_lane by exact Hi.
  destruct i as [|j]; [|apply Hv; lia].
  unfold _mm256_set1_epi8. rewrite lane_mk_vec by lia.
  change (0 mod 256) with 0. lia.
Qed.

Lemma chunk_ref_inv bytes last_cont next_bytes next :
  carry_ok last_cont -> bytes_vec next_bytes -> bytes_vec next ->
  match chunk_ref Z.add bytes last_cont next_bytes next with
  | Pass o nb => carry_ok o /\ bytes_vec nb
  | _ => True
  end.
Proof.
  intros Hc Hn Hn'. unfold chunk_ref.
  destruct ((mask_of is_high bytes =? 0) && (last_cont =? 0)); [exact I|].
  destruct (scan Z.add last_cont bytes) as [o|] eqn:E; [|exact I].
  destruct (pairs_clean bytes next_bytes); [|exact I].
  split; [|exact Hn']. now apply (scan_carry_ok bytes last_cont).
Qed.

(** The loop variables as the scalar description gives them. *)
Lemma state_at_ref merge mem k :
  merge = add64 \/ merge = Z.lor ->
  match state_at merge mem k with
  | Some (last_cont, next_bytes) => carry_ok last_cont /\ bytes_vec next_bytes
  | None => True
  end /\
  state_at merge mem (S k) =
  match state_at merge mem k with
  | None => None
  | Some (last_cont, next_bytes) =>
      match chunk_ref Z.add (fst (v_load mem (32 * Z.of_nat k))) last_cont
                      next_bytes (fst (v_load mem (32 * Z.of_nat k + 31))) with
      | Reject => None
      | Skip => Some (last_cont, next_bytes)
      | Pass last_cont' next_bytes' => Some (last_cont', next_bytes')
      end
  end.
Proof.
  intros Hm.
  assert (Hstep : forall j lc nb, carry_ok lc -> bytes_vec nb ->
            chunk_step merge (fst (v_load mem (32 * Z.of_nat j))) lc nb
                       (fst (v_load mem (32 * Z.of_nat j + 31))) =
            chunk_ref Z.add (fst (v_load mem (32 * Z.of_nat j))) lc nb
                      (fst (v_load mem (32 * Z.of_nat j + 31)))).
  { intros j lc nb Hc Hn. destruct Hm as [-> | ->].
    - apply chunk_step_add; [apply v_load_bytes|now apply carry_ok_range|exact Hn].
    - rewrite chunk_step_lor;
        [|apply v_load_bytes|now apply carry_ok_range|exact Hn].
      now apply chunk_ref_lor_add. }
  assert (Hinv : forall j, match state_at merge mem j with
                           | Some (lc, nb) => carry_ok lc /\ bytes_vec nb
                           | None => True
                           end).
  { induction j as [|j IH].
    - cbn [state_at]. split; [now left|]. apply shift_left_bytes, v_load_bytes.
    - rewrite state_at_S.
      destruct (state_at merge mem j) as [[lc nb]|]; [|exact I].
      destruct IH as [Hc Hn]. rewrite (Hstep j lc nb Hc Hn).
      pose proof (chunk_ref_inv (fst (v_load mem (32 * Z.of_nat j))) lc nb
                    (fst (v_load mem (32 * Z.of_nat j + 31))) Hc Hn
                    (v_load_bytes _ _)) as H.
      destruct (chunk_ref Z.add _ lc nb _); [now split|exact I|exact H]. }
  split; [apply Hinv|].
  rewrite state_at_S. specialize (Hinv k).
  destruct (state_at merge mem k) as [[lc nb]|]; [|reflexivity].
  destruct Hinv as [Hc Hn]. now rewrite (Hstep k lc nb Hc Hn).
Qed.

(** Adding and ORing the shifted leader masks give the same loop
    variables at every iteration. *)
Lemma state_at_lor_add mem k : state_at Z.lor mem k = state_at add64 mem k.
Proof.
  induction k as [|k IH]; [reflexivity|].
  rewrite (proj2 (state_at_ref Z.lor mem k (or_intror eq_refl))).
  rewrite (proj2 (state_at_ref add64 mem k (or_introl eq_refl))).
  now rewrite IH.
Qed.


(** ** The scan as a counter of expected continuation bytes *)

Lemma reach_range b : 0 <= reach b <= 3.
Proof. unfold reach. destruct (lead1 b), (lead2 b), (lead3 b); simpl; lia. Qed.

Lemma leader_bits_ones b : leader_bits b = Z.ones (reach b).
Proof.
  unfold leader_bits, reach, lead1, lead2, lead3.
  destruct (Z.leb_spec 192 b), (Z.leb_spec 224 b), (Z.leb_spec 240 b);
    try lia; reflexivity.
Qed.

Lemma is_cont_reach b : is_cont b = true -> reach b = 0.
Proof.
  unfold is_cont, reach, lead1, lead2, lead3.
  destruct (Z.leb_spec 128 b), (Z.ltb_spec b 192), (Z.leb_spec 192 b),
    (Z.leb_spec 224 b), (Z.leb_spec 240 b); simpl; intros; try lia; discriminate.
Qed.

Lemma ones_inj r r' : 0 <= r <= 3 -> 0 <= r' <= 3 -> Z.ones r = Z.ones r' -> r = r'.
Proof.
  intros H H' E.
  assert (C : r = 0 \/ r = 1 \/ r = 2 \/ r = 3) by lia.
  assert (C' : r' = 0 \/ r' = 1 \/ r' = 2 \/ r' = 3) by lia.
  destruct C as [-> | [-> | [-> | ->]]], C' as [-> | [-> | [-> | ->]]];
    vm_compute in E; congruence.
Qed.

Lemma count_step_range r b :
  0 <= r <= 3 -> Bool.eqb (is_cont b) (0 <? r) = true ->
  0 <= (if is_cont b then r - 1 else reach b) <= 3.
Proof.
  intros Hr E. pose proof (reach_range b).
  destruct (is_cont b); [|lia].
  destruct (Z.ltb_spec 0 r); [lia|discriminate].
Qed.

Lemma count_scan_range l :
  forall r r', 0 <= r <= 3 -> count_scan r l = Some r' -> 0 <= r' <= 3.
Proof.
  induction l as [|b l IH]; intros r r' Hr H; cbn [count_scan] in H.
  - injection H as <-. exact Hr.
  - destruct (Bool.eqb (is_cont b) (0 <? r)) eqn:E; [|discriminate].
    apply (IH _ _ (count_step_range r b Hr E) H).
Qed.

Lemma scan_count l :
  forall r, 0 <= r <= 3 ->
    scan Z.add (Z.ones r) l = option_map Z.ones (count_scan r l).
Proof.
  induction l as [|b l IH]; intros r Hr; cbn [scan count_scan]; [reflexivity|].
  assert (Eodd : Z.odd (Z.ones r) = (0 <? r)).
  { assert (C : r = 0 \/ r = 1 \/ r = 2 \/ r = 3) by lia.
    destruct C as [-> | [-> | [-> | ->]]]; reflexivity. }
  rewrite Eodd.
  destruct (Bool.eqb (is_cont b) (0 <? r)) eqn:E; [|reflexivity].
  rewrite <- (IH _ (count_step_range r b Hr E)). f_equal.
  rewrite leader_bits_ones.
  destruct (is_cont b) eqn:Ec.
  - rewrite (is_cont_reach b Ec).
    assert (C : r = 1 \/ r = 2 \/ r = 3)
      by (destruct (Z.ltb_spec 0 r); [lia|discriminate]).
    destruct C as [-> | [-> | ->]]; reflexivity.
  - assert (r = 0) as -> by (destruct (Z.ltb_spec 0 r); [discriminate|lia]).
    reflexivity.
Qed.

Lemma count_scan_app l1 l2 r :
  count_scan r (l1 ++ l2) =
  match count_scan r l1 with
  | Some r1 => count_scan r1 l2
  | None => None
  end.
Proof.
  revert r. induction l1 as [|b l1 IH]; intros r; cbn [count_scan app];
    [reflexivity|].
  destruct (Bool.eqb (is_cont b) (0 <? r)); [apply IH|reflexivity].
Qed.

(** What a passing step tells. *)
Lemma count_step_inv r b l r2 :
  0 <= r <= 3 -> count_scan r (b :: l) = Some r2 ->
  exists r1, count_scan r1 l = Some r2 /\ 0 <= r1 <= 3 /\
    ((is_cont b = true /\ reach b = 0 /\ 1 <= r /\ r1 = r - 1) \/
     (is_cont b = false /\ r = 0 /\ r1 = reach b)).
Proof.
  intros Hr H. cbn [count_scan] in H.
  destruct (Bool.eqb (is_cont b) (0 <? r)) eqn:E; [|discriminate].
  exists (if is_cont b then r - 1 else reach b).
  split; [exact H|]. split; [now apply count_step_range|].
  destruct (is_cont b) eqn:Ec.
  - left. pose proof (is_cont_reach b Ec).
    destruct (Z.ltb_spec 0 r); [lia|discriminate].
  - right. destruct (Z.ltb_spec 0 r); [discriminate|lia].
Qed.

(** After a passing scan the counter is given by the last three bytes. *)
Lemma count_scan_last3 l0 x3 x2 x1 r r' j :
  0 <= r <= 3 -> count_scan r (l0 ++ [x3; x2; x1]) = Some r' -> 0 <= j ->
  (j <? r') = required_after x3 x2 x1 j.
Proof.
  intros Hr H Hj. rewrite count_scan_app in H.
  destruct (count_scan r l0) as [r0|] eqn:E0; [|discriminate].
  pose proof (count_scan_range l0 r r0 Hr E0) as Hr0.
  destruct (count_step_inv _ _ _ _ Hr0 H) as (r1 & H1 & Hr1 & C3).
  destruct (count_step_inv _ _ _ _ Hr1 H1) as (r2 & H2 & Hr2 & C2).
  destruct (count_step_inv _ _ _ _ Hr2 H2) as (r3 & H3 & Hr3 & C1).
  cbn [count_scan] in H3. injection H3 as <-.
  pose proof (reach_range x1). pose proof (reach_range x2).
  pose proof (reach_range x3).
  unfold required_after.
  destruct (Z.ltb_spec j r3), (Z.leb_spec (j + 1) (reach x1)),
    (Z.leb_spec (j + 2) (reach x2)), (Z.leb_spec (j + 3) (reach x3));
    cbn [orb]; try reflexivity; exfalso; lia.
Qed.

Lemma mask_of_zero f l :
  mask_of f l = 0 -> Forall (fun b => f b = false) l.
Proof.
  induction l as [|b l IH]; intros H; [constructor|].
  cbn [mask_of] in H. pose proof (mask_of_range f l).
  destruct (f b) eqn:E; simpl Z.b2z in H; [lia|].
  constructor; [exact E|]. apply IH. lia.
Qed.

Lemma not_high_class b :
  is_high b = false -> is_cont b = false /\ reach b = 0.
Proof.
  unfold is_high, is_cont, reach, lead1, lead2, lead3.
  destruct (Z.leb_spec 128 b), (Z.ltb_spec b 192), (Z.leb_spec 192 b),
    (Z.leb_spec 224 b), (Z.leb_spec 240 b); simpl; intros; try lia;
    try discriminate; split; reflexivity.
Qed.

(** A chunk without high bits keeps a zero counter. *)
Lemma count_scan_ascii l :
  Forall (fun b => is_high b = false) l -> count_scan 0 l = Some 0.
Proof.
  induction 1 as [|b l Hb _ IH]; [reflexivity|].
  cbn [count_scan]. destruct (not_high_class b Hb) as [-> ->]. exact IH.
Qed.

(** *** The chunks of the memory as lists *)

Lemma map_seq_shift {A} (g : nat -> A) n :
  forall a, map g (seq a n) = map (fun i => g (a + i)%nat) (seq 0 n).
Proof.
  induction n as [|n IH]; intros a; [reflexivity|].
  cbn [seq map]. rewrite Nat.add_0_r. f_equal.
  rewrite IH, <- seq_shift, map_map.
  apply map_ext. intros i. f_equal. lia.
Qed.

Lemma chunk_list mem k :
  fst (v_load mem (32 * Z.of_nat k)) =
  map (fun i => byte_at mem (Z.of_nat i)) (seq (32 * k) 32).
Proof.
  rewrite map_seq_shift. unfold v_load, mk_vec, byte_at. cbn [fst].
  apply map_ext. intros i. do 2 f_equal. lia.
Qed.

Lemma bytes_upto_S mem k :
  bytes_upto mem (32 * S k) =
  bytes_upto mem (32 * k) ++ fst (v_load mem (32 * Z.of_nat k)).
Proof.
  rewrite chunk_list. unfold bytes_upto.
  replace (32 * S k)%nat with (32 * k + 32)%nat by lia.
  now rewrite seq_app, map_app.
Qed.

Lemma bytes_upto_length mem n : length (bytes_upto mem n) = n.
Proof. unfold bytes_upto. now rewrite length_map, length_seq. Qed.

Lemma bytes_upto_nth mem n i :
  (i < n)%nat -> nth i (bytes_upto mem n) 0 = byte_at mem (Z.of_nat i).
Proof.
  intros Hi. unfold bytes_upto.
  rewrite (nth_indep _ 0 (byte_at mem (Z.of_nat 0)))
    by (rewrite length_map, length_seq; exact Hi).
  rewrite (map_nth (fun i => byte_at mem (Z.of_nat i))), seq_nth by exact Hi.
  reflexivity.
Qed.

(** The last three bytes of a chunk. *)
Lemma chunk_last3 mem k :
  exists l0,
    fst (v_load mem (32 * Z.of_nat k)) =
    l0 ++ [byte_at mem (32 * Z.of_nat k + 29);
           byte_at mem (32 * Z.of_nat k + 30);
           byte_at mem (32 * Z.of_nat k + 31)].
Proof.
  exists (map (fun i => byte_val (mem (32 * Z.of_nat k + Z.of_nat i))) (seq 0 29)).
  reflexivity.
Qed.

(** *** The carry at the start of every iteration *)

(** The carry is the counter of the scan over all bytes before the chunk. *)
Lemma state_at_count mem k last_cont next_bytes :
  state_at add64 mem k = Some (last_cont, next_bytes) ->
  exists r, 0 <= r <= 3 /\ last_cont = Z.ones r /\
            count_scan 0 (bytes_upto mem (32 * k)) = Some r.
Proof.
  revert last_cont next_bytes. induction k as [|k IH]; intros lc nb H.
  - cbn [state_at] in H. injection H as <- _. exists 0.
    repeat split; try lia; reflexivity.
  - destruct (state_at_ref add64 mem k (or_introl eq_refl)) as [Hinv Hs].
    rewrite Hs in H.
    destruct (state_at add64 mem k) as [[lc0 nb0]|]; [|discriminate].
    destruct (IH lc0 nb0 eq_refl) as (r0 & Hr0 & -> & Hc0).
    rewrite bytes_upto_S, count_scan_app, Hc0.
    unfold chunk_ref in H. rewrite (scan_count _ r0 Hr0) in H.
    destruct ((mask_of is_high (fst (v_load mem (32 * Z.of_nat k))) =? 0) &&
              (Z.ones r0 =? 0)) eqn:Esk.
    + injection H as <- _. apply andb_true_iff in Esk. destruct Esk as [Eh E0].
      apply Z.eqb_eq in Eh, E0.
      assert (r0 = 0) as -> by (apply ones_inj; [lia|lia|exact E0]).
      exists 0. repeat split; try lia.
      apply count_scan_ascii, mask_of_zero, Eh.
    + destruct (count_scan r0 (fst (v_load mem (32 * Z.of_nat k)))) as [r1|] eqn:E1;
        [|discriminate].
      cbn [option_map] in H.
      destruct (pairs_clean _ nb0); [|discriminate].
      injection H as <- _. exists r1. repeat split; try reflexivity;
        apply (count_scan_range _ _ _ Hr0 E1).
Qed.

Lemma state_at_required mem k last_cont next_bytes j :
  state_at add64 mem (S k) = Some (last_cont, next_bytes) -> 0 <= j ->
  Z.testbit last_cont j =
  required_after (byte_at mem (32 * Z.of_nat k + 29))
                 (byte_at mem (32 * Z.of_nat k + 30))
                 (byte_at mem (32 * Z.of_nat k + 31)) j.
Proof.
  intros H Hj.
  destruct (state_at_count mem (S k) _ _ H) as (r & Hr & -> & Hc).
  rewrite bytes_upto_S in Hc.
  destruct (chunk_last3 mem k) as (l0 & El). rewrite El, app_assoc in Hc.
  rewrite Z.testbit_ones_nonneg by lia.
  apply (count_scan_last3 _ _ _ _ 0 r j ltac:(lia) Hc Hj).
Qed.

(** ** Adding against ORing the leader masks *)

Lemma validate_with_lor_add mem len :
  fst (validate_with Z.lor mem len) = fst (validate_with add64 mem len).
Proof. rewrite !validate_with_final. now rewrite state_at_lor_add. Qed.

(** Where adding and ORing give different masks, the chunk is rejected
    either way. *)
Lemma merge_differs_reject mem k last_cont next_bytes :
  state_at add64 mem k = Some (last_cont, next_bytes) ->
  let bytes := fst (v_load mem (32 * Z.of_nat k)) in
  let next := fst (v_load mem (32 * Z.of_nat k + 31)) in
  req_of Z.lor last_cont bytes <> req_of add64 last_cont bytes ->
  chunk_step add64 bytes last_cont next_bytes next = Reject /\
  chunk_step Z.lor bytes last_cont next_bytes next = Reject.
Proof.
  intros Hs bytes next Hne.
  pose proof (proj1 (state_at_ref add64 mem k (or_introl eq_refl))) as Hinv.
  rewrite Hs in Hinv. destruct Hinv as [Hc Hn].
  assert (Hb : bytes_vec bytes) by apply v_load_bytes.
  assert (Hr := carry_ok_range _ Hc).
  rewrite (chunk_step_add bytes last_cont Hb Hr next_bytes next Hn).
  rewrite (chunk_step_lor bytes last_cont Hb Hr next_bytes next Hn).
  rewrite (chunk_ref_lor_add _ _ _ _ Hc).
  rewrite (req_of_add64 bytes last_cont Hb Hr) in Hne.
  assert (Hadd := scan_add_req bytes last_cont (proj1 Hr)).
  assert (Hlor := scan_lor_req bytes last_cont (proj1 Hr)).
  rewrite (scan_lor_add _ _ Hc) in Hlor.
  assert (Hrej : scan Z.add last_cont bytes = None).
  { destruct (scan Z.add last_cont bytes) as [o|]; [|reflexivity].
    exfalso. apply Hne.
    set (P := 2 ^ Z.of_nat (length bytes)) in *.
    assert (HP : 0 < P) by (apply Z.pow_pos_nonneg; lia).
    destruct (Z.eqb_spec (mask_of is_cont bytes) (req_of Z.add last_cont bytes mod P))
      as [Ea|]; [|discriminate].
    destruct (Z.eqb_spec (mask_of is_cont bytes) (req_of Z.lor last_cont bytes mod P))
      as [El|]; [|discriminate].
    injection Hadd as Hadd. injection Hlor as Hlor.
    rewrite (Z.div_mod (req_of Z.lor last_cont bytes) P) by lia.
    rewrite (Z.div_mod (req_of Z.add last_cont bytes) P) by lia.
    congruence. }
  assert (Hns : (mask_of is_high bytes =? 0) && (last_cont =? 0) = false).
  { destruct ((mask_of is_high bytes =? 0) && (last_cont =? 0)) eqn:E;
      [|reflexivity].
    apply andb_true_iff in E. destruct E as [Eh E0].
    apply Z.eqb_eq in Eh, E0. subst last_cont.
    pose proof (scan_count bytes 0 ltac:(lia)) as Hsc.
    change (Z.ones 0) with 0 in Hsc. rewrite Hsc in Hrej.
    rewrite (count_scan_ascii bytes (mask_of_zero _ _ Eh)) in Hrej.
    discriminate. }
  unfold chunk_ref. rewrite Hns, Hrej. split; reflexivity.
Qed.

(** ** Encoded code points pass the byte-by-byte reference *)

Lemma err_bits_harmless_check :
  forallb (fun p => forallb (fun c =>
    lead1 p || (err_bits p c =? 0)) (zrange 256)) (zrange 256) = true.
Proof. vm_compute. reflexivity. Qed.

(** A byte that is not a leader raises no error bit on the next byte. *)
Lemma err_bits_harmless p c :
  0 <= p < 256 -> 0 <= c < 256 -> lead1 p = false -> err_bits p c = 0.
Proof.
  intros Hp Hc Hl.
  pose proof (forallb_zrange _ _ err_bits_harmless_check p Hp) as H.
  cbv beta in H. pose proof (forallb_zrange _ _ H c Hc) as H'.
  cbv beta in H'. rewrite Hl in H'. now apply Z.eqb_eq in H'.
Qed.

Lemma err_bits_two_check :
  forallb (fun t => forallb (fun u =>
    negb (2 <=? t) || (err_bits (0xC0 + t) (0x80 + u) =? 0))
    (zrange 64)) (zrange 32) = true.
Proof. vm_compute. reflexivity. Qed.

Lemma err_bits_three_check :
  forallb (fun t => forallb (fun u =>
    negb (((1 <=? t) || (32 <=? u)) && negb ((t =? 13) && (32 <=? u))) ||
    (err_bits (0xE0 + t) (0x80 + u) =? 0))
    (zrange 64)) (zrange 16) = true.
Proof. vm_compute. reflexivity. Qed.

Lemma err_bits_four_check :
  forallb (fun t => forallb (fun u =>
    negb ((t <=? 3) || (u <? 16)) ||
    (err_bits (0xF0 + t) (0x80 + u) =? 0))
    (zrange 64)) (zrange 5) = true.
Proof. vm_compute. reflexivity. Qed.

Lemma class_ascii b :
  0 <= b < 128 -> is_cont b = false /\ reach b = 0 /\ lead1 b = false.
Proof.
  intros H. unfold is_cont, reach, lead1, lead2, lead3.
  destruct (Z.leb_spec 128 b), (Z.ltb_spec b 192), (Z.leb_spec 192 b),
    (Z.leb_spec 224 b), (Z.leb_spec 240 b); try lia; repeat split.
Qed.

Lemma class_cont b :
  128 <= b < 192 -> is_cont b = true /\ lead1 b = false.
Proof.
  intros H. unfold is_cont, lead1.
  destruct (Z.leb_spec 128 b), (Z.ltb_spec b 192), (Z.leb_spec 192 b);
    try lia; repeat split.
Qed.

Lemma class_lead b :
  192 <= b ->
  is_cont b = false /\
  reach b = (if b <? 224 then 1 else if b <? 240 then 2 else 3).
Proof.
  intros H. unfold is_cont, reach, lead1, lead2, lead3.
  destruct (Z.leb_spec 128 b), (Z.ltb_spec b 192), (Z.leb_spec 192 b),
    (Z.leb_spec 224 b), (Z.leb_spec 240 b), (Z.ltb_spec b 224),
    (Z.ltb_spec b 240); try lia; repeat split.
Qed.

Lemma ref_scan_app l1 l2 r p :
  ref_scan r p (l1 ++ l2) =
  match ref_scan r p l1 with
  | Some (r1, p1) => ref_scan r1 p1 l2
  | None => None
  end.
Proof.
  revert r p. induction l1 as [|b l1 IH]; intros r p; cbn [ref_scan app];
    [reflexivity|].
  destruct (Bool.eqb (is_cont b) (0 <? r) && (err_bits p b =? 0));
    [apply IH|reflexivity].
Qed.

(** A start byte (not a continuation byte) after a finished sequence. *)
Lemma ref_scan_start p b l :
  is_cont b = false -> err_bits p b = 0 ->
  ref_scan 0 p (b :: l) = ref_scan (reach b) b l.
Proof.
  intros Hc He. cbn [ref_scan]. rewrite Hc, He. reflexivity.
Qed.

(** A continuation byte while some are expected. *)
Lemma ref_scan_cont r p b l :
  1 <= r -> is_cont b = true -> err_bits p b = 0 ->
  ref_scan r p (b :: l) = ref_scan (r - 1) b l.
Proof.
  intros Hr Hc He. cbn [ref_scan]. rewrite Hc, He.
  destruct (Z.ltb_spec 0 r); [reflexivity|lia].
Qed.

Lemma encode_ref cp p :
  valid_code_point cp -> 0 <= p < 256 -> lead1 p = false ->
  exists p', ref_scan 0 p (encode cp) = Some (0, p') /\
             0 <= p' < 256 /\ lead1 p' = false.
Proof.
  intros [Hr Hs] Hp Hl. unfold encode.
  destruct (Z.ltb_spec cp 128) as [H1|H1];
    [|destruct (Z.ltb_spec cp 2048) as [H2|H2];
      [|destruct (Z.ltb_spec cp 65536) as [H3|H3]]].
  - (* one byte *)
    destruct (class_ascii cp ltac:(lia)) as (Hc & Hre & Hle).
    exists cp. rewrite ref_scan_start, Hre;
      [|exact Hc|apply err_bits_harmless; (lia || exact Hl)].
    repeat split; (lia || exact Hle).
  - (* two bytes *)
    set (t := cp / 64). set (w := cp mod 64).
    assert (Ht : 2 <= t < 32) by (subst t; Z.div_mod_to_equations; lia).
    assert (Hw : 0 <= w < 64) by (subst w; Z.div_mod_to_equations; lia).
    destruct (class_lead (192 + t) ltac:(lia)) as (Hc0 & Hr0).
    destruct (Z.ltb_spec (192 + t) 224); [|lia].
    destruct (class_cont (128 + w) ltac:(lia)) as (Hc1 & Hl1).
    assert (He : err_bits (192 + t) (128 + w) = 0).
    { pose proof (forallb_zrange _ _ err_bits_two_check t ltac:(lia)) as Hck.
      cbv beta in Hck. pose proof (forallb_zrange _ _ Hck w ltac:(lia)) as Hck'.
      cbv beta in Hck'. destruct (Z.leb_spec 2 t); [|lia].
      now apply Z.eqb_eq in Hck'. }
    exists (128 + w).
    rewrite ref_scan_start, Hr0;
      [|exact Hc0|apply err_bits_harmless; (lia || exact Hl)].
    rewrite ref_scan_cont; [|lia|exact Hc1|exact He].
    repeat split; (lia || exact Hl1).
  - (* three bytes *)
    set (t := cp / 4096). set (u := (cp / 64) mod 64). set (w := cp mod 64).
    assert (Ht : 0 <= t < 16) by (subst t; Z.div_mod_to_equations; lia).
    assert (Hu : 0 <= u < 64) by (subst u; Z.div_mod_to_equations; lia).
    assert (Hw : 0 <= w < 64) by (subst w; Z.div_mod_to_equations; lia).
    assert (Hmin : 1 <= t \/ 32 <= u) by (subst t u; Z.div_mod_to_equations; lia).
    assert (Hsur : ~ (t = 13 /\ 32 <= u))
      by (subst t u; Z.div_mod_to_equations; lia).
    destruct (class_lead (224 + t) ltac:(lia)) as (Hc0 & Hr0).
    destruct (Z.ltb_spec (224 + t) 224); [lia|].
    destruct (Z.ltb_spec (224 + t) 240); [|lia].
    destruct (class_cont (128 + u) ltac:(lia)) as (Hc1 & Hl1).
    destruct (class_cont (128 + w) ltac:(lia)) as (Hc2 & Hl2).
    assert (He : err_bits (224 + t) (128 + u) = 0).
    { pose proof (forallb_zrange _ _ err_bits_three_check t ltac:(lia)) as Hck.
      cbv beta in Hck. pose proof (forallb_zrange _ _ Hck u ltac:(lia)) as Hck'.
      cbv beta in Hck'.
      destruct (Z.leb_spec 1 t), (Z.leb_spec 32 u), (Z.eqb_spec t 13);
        try lia; now apply Z.eqb_eq in Hck'. }
    exists (128 + w).
    rewrite ref_scan_start, Hr0;
      [|exact Hc0|apply err_bits_harmless; (lia || exact Hl)].
    rewrite ref_scan_cont; [|lia|exact Hc1|exact He].
    rewrite ref_scan_cont;
      [|lia|exact Hc2|apply err_bits_harmless; (lia || exact Hl1)].
    repeat split; (lia || exact Hl2).
  - (* four bytes *)
    set (t := cp / 262144). set (u := (cp / 4096) mod 64).
    set (v := (cp / 64) mod 64). set (w := cp mod 64).
    assert (Ht : 0 <= t < 5) by (subst t; Z.div_mod_to_equations; lia).
    assert (Hu : 0 <= u < 64) by (subst u; Z.div_mod_to_equations; lia).
    assert (Hv : 0 <= v < 64) by (subst v; Z.div_mod_to_equations; lia).
    assert (Hw : 0 <= w < 64) by (subst w; Z.div_mod_to_equations; lia).
    assert (Hmax : t <= 3 \/ u < 16) by (subst t u; Z.div_mod_to_equations; lia).
    destruct (class_lead (240 + t) ltac:(lia)) as (Hc0 & Hr0).
    destruct (Z.ltb_spec (240 + t) 224); [lia|].
    destruct (Z.ltb_spec (240 + t) 240); [lia|].
    destruct (class_cont (128 + u) ltac:(lia)) as (Hc1 & Hl1).
    destruct (class_cont (128 + v) ltac:(lia)) as (Hc2 & Hl2).
    destruct (class_cont (128 + w) ltac:(lia)) as (Hc3 & Hl3).
    assert (He : err_bits (240 + t) (128 + u) = 0).
    { pose proof (forallb_zrange _ _ err_bits_four_check t ltac:(lia)) as Hck.
      cbv beta in Hck. pose proof (forallb_zrange _ _ Hck u ltac:(lia)) as Hck'.
      cbv beta in Hck'.
      destruct (Z.leb_spec t 3), (Z.ltb_spec u 16);
        try lia; now apply Z.eqb_eq in Hck'. }
    exists (128 + w).
    rewrite ref_scan_start, Hr0;
      [|exact Hc0|apply err_bits_harmless; (lia || exact Hl)].
    rewrite ref_scan_cont; [|lia|exact Hc1|exact He].
    rewrite ref_scan_cont;
      [|lia|exact Hc2|apply err_bits_harmless; (lia || exact Hl1)].
    rewrite ref_scan_cont;
      [|lia|exact Hc3|apply err_bits_harmless; (lia || exact Hl2)].
    repeat split; (lia || exact Hl3).
Qed.

Lemma utf8_encode_ref cps :
  Forall valid_code_point cps ->
  forall p, 0 <= p < 256 -> lead1 p = false ->
    exists p', ref_scan 0 p (utf8_encode cps) = Some (0, p').
Proof.
  induction 1 as [|cp cps Hcp _ IH]; intros p Hp Hl.
  - exists p. reflexivity.
  - unfold utf8_encode. cbn [flat_map]. rewrite ref_scan_app.
    destruct (encode_ref cp p Hcp Hp Hl) as (p1 & E & Hp1 & Hl1).
    rewrite E. apply (IH p1 Hp1 Hl1).
Qed.

Lemma ref_scan_count l :
  forall r p r' p', ref_scan r p l = Some (r', p') -> count_scan r l = Some r'.
Proof.
  induction l as [|b l IH]; intros r p r' p' H; cbn [ref_scan count_scan] in *.
  - now injection H as -> _.
  - destruct (Bool.eqb (is_cont b) (0 <? r)); [|discriminate].
    destruct (err_bits p b =? 0); [|discriminate].
    apply (IH _ _ _ _ H).
Qed.

Lemma ref_scan_pairs l :
  forall r p s g, ref_scan r p l = Some s -> (g < length l)%nat ->
    err_bits (nth g (p :: l) 0) (nth g l 0) = 0.
Proof.
  induction l as [|b l IH]; intros r p s g H Hg; [simpl in Hg; lia|].
  cbn [ref_scan] in H.
  destruct (Bool.eqb (is_cont b) (0 <? r)); [|discriminate].
  destruct (Z.eqb_spec (err_bits p b) 0) as [E|]; [|discriminate].
  destruct g as [|g]; [exact E|].
  cbn [andb] in H. simpl in Hg.
  change (err_bits (nth g (b :: l) 0) (nth g l 0) = 0).
  apply (IH _ _ _ _ H). lia.
Qed.

(** ** The validator against the byte-by-byte reference *)

Lemma count_scan_prefix l1 l2 r x :
  count_scan r (l1 ++ l2) = Some x ->
  exists r1, count_scan r l1 = Some r1 /\ count_scan r1 l2 = Some x.
Proof.
  rewrite count_scan_app. destruct (count_scan r l1) as [r1|]; [|discriminate].
  intros H. now exists r1.
Qed.

Lemma bytes_upto_app mem a n :
  (a <= n)%nat ->
  bytes_upto mem n =
  bytes_upto mem a ++ map (fun i => byte_at mem (Z.of_nat i)) (seq a (n - a)).
Proof.
  intros H. unfold bytes_upto.
  replace n with (a + (n - a))%nat at 1 by lia.
  now rewrite seq_app, map_app.
Qed.

Lemma lead1_reach b : lead1 b = true -> 1 <= reach b.
Proof.
  intros H. unfold reach. rewrite H.
  destruct (lead2 b), (lead3 b); simpl; lia.
Qed.

Lemma reach_0_lead1 b : reach b = 0 -> lead1 b = false.
Proof.
  unfold reach. destruct (lead1 b), (lead2 b), (lead3 b); simpl; intros;
    (lia || reflexivity).
Qed.

(** After a passing scan, a leader in last place leaves the counter
    positive. *)
Lemma count_last_leader l b r0 r :
  0 <= r0 <= 3 -> count_scan r0 (l ++ [b]) = Some r -> lead1 b = true -> 1 <= r.
Proof.
  intros Hr0 H Hl. apply count_scan_prefix in H. destruct H as (r1 & H1 & H2).
  pose proof (count_scan_range _ _ _ Hr0 H1) as Hr1.
  destruct (count_step_inv _ _ _ _ Hr1 H2) as (r2 & H3 & _ & C).
  cbn [count_scan] in H3. injection H3 as <-.
  pose proof (lead1_reach b Hl). lia.
Qed.

Lemma prev_byte_succ mem i :
  0 <= i -> prev_byte mem (i + 1) = byte_at mem i.
Proof.
  intros Hi. unfold prev_byte.
  destruct (Z.leb_spec (i + 1) 0); [lia|]. f_equal. lia.
Qed.

(** The byte before a chunk that starts with a zero counter is not a
    leader. *)
Lemma prev_of_chunk mem k :
  count_scan 0 (bytes_upto mem (32 * k)) = Some 0 ->
  lead1 (prev_byte mem (32 * Z.of_nat k)) = false.
Proof.
  intros Hc. unfold prev_byte.
  destruct (Z.leb_spec (32 * Z.of_nat k) 0); [reflexivity|].
  destruct k as [|k]; [lia|].
  rewrite (bytes_upto_app mem (32 * S k - 1) (32 * S k)) in Hc by lia.
  replace (32 * S k - (32 * S k - 1))%nat with 1%nat in Hc by lia.
  cbn [seq map] in Hc.
  replace (Z.of_nat (32 * S k - 1)) with (32 * Z.of_nat (S k) - 1) in Hc by lia.
  destruct (lead1 (byte_at mem (32 * Z.of_nat (S k) - 1))) eqn:E; [|reflexivity].
  pose proof (count_last_leader _ _ 0 0 ltac:(lia) Hc E). lia.
Qed.

Section Complete.

Variables (mem : memory) (n : nat).
Hypothesis Hcount : count_scan 0 (bytes_upto mem (32 * n)) = Some 0.
Hypothesis Hpairs : forall g, 0 <= g < 32 * Z.of_nat n ->
  err_bits (prev_byte mem g) (byte_at mem g) = 0.

(** When the reference passes on all the bytes of the chunks, every
    iteration is reached, with the counter as carry and a shifted view
    whose lanes are the true previous bytes or are no leaders. *)
Lemma state_at_complete k :
  (k <= n)%nat ->
  exists r nb,
    state_at add64 mem k = Some (Z.ones r, nb) /\ 0 <= r <= 3 /\
    count_scan 0 (bytes_upto mem (32 * k)) = Some r /\
    (forall i, (i < 32)%nat ->
       lane nb i = prev_byte mem (32 * Z.of_nat k + Z.of_nat i) \/
       lead1 (lane nb i) = false).
Proof.
  induction k as [|k IH]; intros Hk.
  - exists 0, (v_shift_left (fst (v_load mem 0)) (_mm256_set1_epi8 0)).
    repeat split; try lia; try reflexivity.
    intros i Hi. left. rewrite v_shift_left_lane by exact Hi.
    destruct i as [|j]; [reflexivity|].
    rewrite v_load_lane by lia.
    replace (32 * Z.of_nat 0 + Z.of_nat (S j)) with (Z.of_nat j + 1) by lia.
    rewrite prev_byte_succ by lia. unfold byte_at. f_equal.
  - destruct IH as (r & nb & Hs & Hr & Hc & Hv); [lia|].
    destruct (state_at_ref add64 mem k (or_introl eq_refl)) as [Hinv HS].
    rewrite Hs in Hinv, HS. destruct Hinv as [_ Hnb].
    set (chunk := fst (v_load mem (32 * Z.of_nat k))) in *.
    set (next := fst (v_load mem (32 * Z.of_nat k + 31))) in *.
    assert (Hchunk : bytes_vec chunk) by apply v_load_bytes.
    assert (Hlane : forall i, (i < 32)%nat ->
              lane chunk i = byte_at mem (32 * Z.of_nat k + Z.of_nat i)).
    { intros i Hi. apply v_load_lane, Hi. }
    (* the counter after this chunk *)
    assert (Hc1 : exists r1, count_scan r chunk = Some r1 /\
                  count_scan 0 (bytes_upto mem (32 * S k)) = Some r1).
    { pose proof Hcount as H.
      rewrite (bytes_upto_app mem (32 * S k) (32 * n)) in H by lia.
      apply count_scan_prefix in H. destruct H as (r1 & H1 & _).
      exists r1. split; [|exact H1].
      rewrite bytes_upto_S, count_scan_app, Hc in H1. exact H1. }
    destruct Hc1 as (r1 & Hr1c & Hr1u).
    pose proof (count_scan_range _ _ _ Hr Hr1c) as Hr1.
    unfold chunk_ref in HS. rewrite (scan_count chunk r Hr), Hr1c in HS.
    cbn [option_map] in HS.
    destruct ((mask_of is_high chunk =? 0) && (Z.ones r =? 0)) eqn:Esk.
    + (* the chunk is skipped *)
      apply andb_true_iff in Esk. destruct Esk as [Eh E0].
      apply Z.eqb_eq in Eh, E0.
      assert (r = 0) by (apply ones_inj; [lia|lia|exact E0]). subst r.
      pose proof (mask_of_zero _ _ Eh) as Hascii.
      rewrite (count_scan_ascii chunk Hascii) in Hr1c. injection Hr1c as <-.
      exists 0, nb. repeat split; try lia; try assumption.
      intros i Hi. right. destruct (Hv i Hi) as [Et|Eh']; [|exact Eh'].
      rewrite Et. destruct i as [|j].
      * replace (32 * Z.of_nat k + Z.of_nat 0) with (32 * Z.of_nat k) by lia.
        apply prev_of_chunk. exact Hc.
      * replace (32 * Z.of_nat k + Z.of_nat (S j))
          with (32 * Z.of_nat k + Z.of_nat j + 1) by lia.
        rewrite prev_byte_succ by lia. rewrite <- Hlane by lia.
        rewrite Forall_forall in Hascii.
        apply reach_0_lead1, not_high_class, Hascii.
        apply nth_In. rewrite (proj1 Hchunk). lia.
    + (* the chunk is checked *)
      assert (Hclean : pairs_clean chunk nb = true).
      { unfold pairs_clean. apply forallb_forall. intros i Hi.
        apply in_seq in Hi. apply Z.eqb_eq.
        destruct (Hv i ltac:(lia)) as [Et|Eh'].
        - rewrite Et, Hlane by lia. apply Hpairs. lia.
        - apply err_bits_harmless; [apply Hnb; lia|apply Hchunk; lia|exact Eh']. }
      rewrite Hclean in HS.
      exists r1, next. repeat split; try lia; try assumption.
      intros i Hi. left. subst next. rewrite v_load_lane by exact Hi.
      replace (32 * Z.of_nat (S k) + Z.of_nat i)
        with (32 * Z.of_nat k + 31 + Z.of_nat i + 1) by lia.
      rewrite prev_byte_succ by lia. reflexivity.
Qed.

Lemma complete_final : final (state_at add64 mem n) = 1.
Proof.
  destruct (state_at_complete n ltac:(lia)) as (r & nb & Hs & Hr & Hc & _).
  rewrite Hs. rewrite Hcount in Hc. injection Hc as <-. reflexivity.
Qed.

End Complete.

(** The reference passing on the bytes of all chunks makes the validator
    return 1. *)
Lemma ref_scan_verdict mem len s :
  ref_scan 0 0 (bytes_upto mem (32 * chunks len)) = Some (0, s) ->
  verdict mem len = 1.
Proof.
  intros H. rewrite verdict_final. apply complete_final.
  - apply (ref_scan_count _ _ _ _ _ H).
  - intros g Hg.
    pose proof (ref_scan_pairs _ _ _ _ (Z.to_nat g) H) as Hp.
    rewrite bytes_upto_length in Hp. specialize (Hp ltac:(lia)).
    rewrite bytes_upto_nth in Hp by lia.
    rewrite Z2Nat.id in Hp by lia.
    unfold prev_byte. destruct (Z.leb_spec g 0).
    + assert (g = 0) as -> by lia. exact Hp.
    + destruct (Z.to_nat g) as [|m] eqn:Em; [lia|].
      cbn [nth] in Hp. rewrite bytes_upto_nth in Hp by lia.
      replace (g - 1) with (Z.of_nat m) by lia. exact Hp.
Qed.

(** *** From the counter to prefix coding *)





Lemma valid_utf8_verdict mem len :
  valid_utf8 (bytes_upto mem (32 * chunks len)) -> verdict mem len = 1.
Proof.
  intros (cps & Hcps & E).
  destruct (utf8_encode_ref cps Hcps 0 ltac:(lia) eq_refl) as (p' & H).
  rewrite <- E in H. now apply (ref_scan_verdict mem len p').
Qed.

(** *** A buffer holding encoded code points, zero-filled to the end of
    its last chunk *)


Lemma chunks_cover len : 0 <= len -> len <= 32 * Z.of_nat (chunks len).
Proof.
  intros H. unfold chunks.
  assert (0 <= (len + 31) / 32) by (apply Z.div_pos; lia).
  rewrite Z2Nat.id by lia. Z.div_mod_to_equations. lia.
Qed.


(** *** The table check where the shifted view is the true one *)

Lemma mask_of_high_byte mem k h :
  32 * Z.of_nat k <= h < 32 * Z.of_nat k + 32 ->
  is_high (byte_at mem h) = true ->
  mask_of is_high (fst (v_load mem (32 * Z.of_nat k))) <> 0.
Proof.
  intros Hh Hb E. apply mask_of_zero in E. rewrite Forall_forall in E.
  assert (Hin : In (byte_at mem h) (fst (v_load mem (32 * Z.of_nat k)))).
  { replace h with (32 * Z.of_nat k + Z.of_nat (Z.to_nat (h - 32 * Z.of_nat k)))
      by lia.
    unfold byte_at. rewrite <- v_load_lane by lia.
    apply nth_In. rewrite v_load_length. lia. }
  apply E in Hin. congruence.
Qed.

(** At the first chunk, and after a chunk with a byte of 0x80 or more,
    [next_bytes] holds the bytes before the lanes of the chunk. *)
Lemma state_at_true_view mem k last_cont next_bytes :
  state_at add64 mem k = Some (last_cont, next_bytes) ->
  k = 0%nat \/
  (exists h, 32 * Z.of_nat k - 32 <= h < 32 * Z.of_nat k /\
             is_high (byte_at mem h) = true) ->
  forall i, (i < 32)%nat ->
    lane next_bytes i = prev_byte mem (32 * Z.of_nat k + Z.of_nat i).
Proof.
  intros Hs Hk i Hi. destruct k as [|k].
  - cbn [state_at] in Hs.
    assert (E : next_bytes = v_shift_left (fst (v_load mem 0)) (_mm256_set1_epi8 0))
      by congruence.
    rewrite E, v_shift_left_lane by exact Hi.
    destruct i as [|j]; [reflexivity|].
    rewrite v_load_lane by lia.
    replace (32 * Z.of_nat 0 + Z.of_nat (S j)) with (Z.of_nat j + 1) by lia.
    rewrite prev_byte_succ by lia. unfold byte_at. f_equal.
  - destruct Hk as [Hk|(h & Hh & Hb)]; [discriminate|].
    rewrite (proj2 (state_at_ref add64 mem k (or_introl eq_refl))) in Hs.
    destruct (state_at add64 mem k) as [[lc0 nb0]|]; [|discriminate].
    unfold chunk_ref in Hs.
    pose proof (mask_of_high_byte mem k h ltac:(lia) Hb) as Hm.
    destruct (Z.eqb_spec (mask_of is_high (fst (v_load mem (32 * Z.of_nat k)))) 0);
      [contradiction|].
    cbn [andb] in Hs.
    destruct (scan Z.add lc0 _); [|discriminate].
    destruct (pairs_clean _ nb0); [|discriminate].
    assert (E : next_bytes = fst (v_load mem (32 * Z.of_nat k + 31)))
      by congruence.
    rewrite E, v_load_lane by exact Hi.
    replace (32 * Z.of_nat (S k) + Z.of_nat i)
      with (32 * Z.of_nat k + 31 + Z.of_nat i + 1) by lia.
    rewrite prev_byte_succ by lia. reflexivity.
Qed.




(** ** The claims *)

(** C8: the empty input is valid: for every memory (every buffer
    pointer), [z_validate_utf8 (buffer, 0)] returns 1. *)
Theorem empty_input_valid (mem : memory) : verdict mem 0 = 1.
Proof. rewrite verdict_final. reflexivity. Qed.

(** C10: for every length less than or equal to zero the function returns
    1; the loop body does not run, so the only load is the one that
    precedes the loop. *)
Theorem nonpositive_length_valid (mem : memory) (len : Z) :
  len <= 0 -> verdict mem len = 1 /\ reads mem len = span 0.
Proof.
  intros H. split.
  - rewrite verdict_final, chunks_nonpos by exact H. reflexivity.
  - rewrite reads_eq, chunk_loop_eq.
    destruct (len >? 0) eqn:E; [lia|]. apply app_nil_r.
Qed.

Lemma nonpositive_length_valid_witness :
  verdict (mem_of [xc0]) (-7) = 1 /\ reads (mem_of [xc0]) (-7) = span 0.
Proof. apply (nonpositive_length_valid (mem_of [xc0]) (-7)). lia. Defined.

(** C2, as stated, fails: with a one-byte buffer the function reads
    offset 31, which is outside [0, 1). *)
Lemma reads_outside_buffer :
  In 31 (reads (mem_of [x61]) 1) /\ ~ (0 <= 31 < 1).
Proof.
  split; [|lia]. rewrite reads_eq. apply in_app_iff. left.
  apply in_span. lia.
Qed.

(** C2, amended: the function never reads before [buffer[0]], and every
    offset it reads is below max (32, 32 * ceil (len / 32) + 31): the load
    before the loop, whole 32-byte chunks, and the 32-byte load at
    [data + 31] of each chunk that passed. *)
Theorem reads_within_chunks (mem : memory) (len : Z) (o : Z) :
  In o (reads mem len) ->
  0 <= o < Z.max 32 (32 * Z.of_nat (chunks len) + 31).
Proof.
  rewrite reads_eq, in_app_iff, in_span. intros [Ho|Ho]; [lia|].
  apply (chunk_loop_reads add64 mem (chunks len)) in Ho; [lia|reflexivity].
Qed.

Lemma reads_within_chunks_witness :
  0 <= 62 < Z.max 32 (32 * Z.of_nat (chunks 3) + 31).
Proof.
  apply (reads_within_chunks (mem_of [xe0; xa0; x80]) 3 62).
  vm_compute. do 95 right. left. reflexivity.
Defined.

(** C9: the verdict is a function of the bytes below the end of the last
    32-byte chunk, not of the bytes below [len] alone: buffers that agree
    on [0, 32 * ceil (len / 32)) get the same verdict, while two buffers
    that agree on [0, len) and differ between [len] and the end of the
    chunk can get different verdicts. *)
Theorem verdict_depends_on_whole_chunks :
  (forall (mem1 mem2 : memory) (len : Z),
      0 < len -> len mod 32 <> 0 ->
      (forall i, 0 <= i < 32 * Z.of_nat (chunks len) -> mem1 i = mem2 i) ->
      verdict mem1 len = verdict mem2 len) /\
  (exists (len : Z) (mem1 mem2 : memory),
      0 < len /\ len mod 32 <> 0 /\
      (forall i, 0 <= i < len -> mem1 i = mem2 i) /\
      verdict mem1 len <> verdict mem2 len).
Proof.
  split.
  - intros mem1 mem2 len _ _ Hag. now apply validate_with_agree.
  - exists 1, (mem_of [x61]), (mem_of [x61; x80]). repeat split; try lia.
    + discriminate.
    + intros i Hi. assert (i = 0) as -> by lia. reflexivity.
    + vm_compute. discriminate.
Qed.

Lemma verdict_depends_on_whole_chunks_witness :
  verdict (mem_of [x61; xc3; xa9]) 3 =
  verdict (mem_of ([x61; xc3; xa9] ++ repeat x00 29 ++ [xff])) 3.
Proof.
  apply (proj1 verdict_depends_on_whole_chunks).
  - lia.
  - vm_compute. discriminate.
  - intros i Hi. replace i with (Z.of_nat (Z.to_nat i)) by lia.
    change (chunks 3) with 1%nat in Hi.
    assert (Hn : (Z.to_nat i < 32)%nat) by lia.
    generalize (Z.to_nat i) Hn. intros n H.
    do 32 (destruct n as [|n]; [reflexivity|]). lia.
Defined.

(** C4: for every pair of adjacent bytes (the lane of the shifted view and
    the lane of the chunk), the AND of the three table lookups that the
    validator computes is nonzero exactly when the nibble triple (first
    and second nibble of the previous byte, first nibble of the current
    byte) is in one of the five disallowed classes. *)
Theorem error_lookup_disallowed (bytes shifted_bytes : vec_t) (i : nat) :
  bytes_vec bytes -> bytes_vec shifted_bytes -> (i < 32)%nat ->
  (Z.land (lane (fst (error_vec bytes shifted_bytes)) i)
          (lane (snd (error_vec bytes shifted_bytes)) i) <> 0 <->
   disallowed (lane shifted_bytes i / 16) (lane shifted_bytes i mod 16)
              (lane bytes i / 16)).
Proof.
  intros Hb Hs Hi. rewrite error_vec_lane by assumption.
  apply err_bits_disallowed; [apply Hs | apply Hb]; exact Hi.
Qed.

Lemma error_lookup_disallowed_witness :
  let bytes := fst (v_load (mem_of [xed; xa0; x80]) 0) in
  let shifted_bytes := v_shift_left bytes (_mm256_set1_epi8 0) in
  Z.land (lane (fst (error_vec bytes shifted_bytes)) 1)
         (lane (snd (error_vec bytes shifted_bytes)) 1) <> 0 <->
  disallowed (lane shifted_bytes 1 / 16) (lane shifted_bytes 1 mod 16)
             (lane bytes 1 / 16).
Proof.
  intros bytes shifted_bytes.
  apply (error_lookup_disallowed bytes shifted_bytes 1).
  - apply bytes_vecb_spec. vm_compute. reflexivity.
  - apply bytes_vecb_spec. vm_compute. reflexivity.
  - lia.
Defined.

(** C5: the validator as written, which adds the shifted leader masks
    into [req], and the variant that ORs them return the same verdict on
    every input; at an iteration where the two merged masks differ, both
    variants reject the chunk. *)
Theorem add_or_same_verdict (mem : memory) :
  (forall len, fst (validate_with Z.lor mem len) = verdict mem len) /\
  (forall k last_cont next_bytes,
      state_at add64 mem k = Some (last_cont, next_bytes) ->
      let bytes := fst (v_load mem (32 * Z.of_nat k)) in
      let next := fst (v_load mem (32 * Z.of_nat k + 31)) in
      req_of Z.lor last_cont bytes <> req_of add64 last_cont bytes ->
      chunk_step add64 bytes last_cont next_bytes next = Reject /\
      chunk_step Z.lor bytes last_cont next_bytes next = Reject).
Proof.
  split.
  - intros len. apply validate_with_lor_add.
  - apply merge_differs_reject.
Qed.

Lemma add_or_same_verdict_witness :
  let mem := mem_of [xe0; xc0] in
  let bytes := fst (v_load mem 0) in
  let next_bytes := v_shift_left bytes (_mm256_set1_epi8 0) in
  let next := fst (v_load mem 31) in
  chunk_step add64 bytes 0 next_bytes next = Reject /\
  chunk_step Z.lor bytes 0 next_bytes next = Reject.
Proof.
  intros mem bytes next_bytes next.
  apply (proj2 (add_or_same_verdict mem) 0%nat 0 next_bytes).
  - reflexivity.
  - vm_compute. discriminate.
Defined.

(** C7: the carry [last_cont] is zero before the first chunk, and at the
    start of every later iteration that is reached its bit [j] is set
    exactly when offset [j] of the upcoming chunk is required to be a
    continuation byte by a leader among the last three bytes of the
    previous chunk. *)
Theorem carry_invariant (mem : memory) :
  (exists next_bytes, state_at add64 mem 0 = Some (0, next_bytes)) /\
  (forall k last_cont next_bytes,
      state_at add64 mem (S k) = Some (last_cont, next_bytes) ->
      forall j, 0 <= j ->
        Z.testbit last_cont j =
        required_after (byte_at mem (32 * Z.of_nat k + 29))
                       (byte_at mem (32 * Z.of_nat k + 30))
                       (byte_at mem (32 * Z.of_nat k + 31)) j).
Proof.
  split.
  - eexists. reflexivity.
  - intros k lc nb H j Hj. now apply (state_at_required mem k lc nb j).
Qed.

Lemma carry_invariant_witness :
  let mem := mem_of (repeat x61 30 ++ [xe1; x80; x80]) in
  Z.testbit 1 0 = required_after (byte_at mem 29) (byte_at mem 30) (byte_at mem 31) 0.
Proof.
  intros mem.
  apply (proj2 (carry_invariant mem) 0%nat 1 (fst (v_load mem 31))).
  - vm_compute. reflexivity.
  - lia.
Defined.


(** ** Further properties of the code *)

(** *** [v_shift_left] and [LOOKUP16] *)

(** X1: [v_shift_left top bottom] has 32 lanes: the last lane of [bottom],
    then the first 31 lanes of [top]. *)
Theorem v_shift_left_lanes (top bottom : vec_t) (i : nat) :
  (i < 32)%nat ->
  length (v_shift_left top bottom) = 32%nat /\
  lane (v_shift_left top bottom) i =
  match i with O => lane bottom 31 | S j => lane top j end.
Proof.
  intros Hi. split; [apply mk_vec_length|]. now apply v_shift_left_lane.
Qed.

Lemma v_shift_left_lanes_witness :
  let top := fst (v_load (mem_of [x61; x62; x63]) 0) in
  let bottom := _mm256_set1_epi8 7 in
  length (v_shift_left top bottom) = 32%nat /\
  lane (v_shift_left top bottom) 2 = lane top 1.
Proof.
  intros top bottom. apply (v_shift_left_lanes top bottom 2). lia.
Defined.

(** X2: shifting a chunk with the chunk before it gives the 32 bytes that
    start one byte before the chunk: what the loop loads at [data + 31]
    for the next round. *)
Theorem v_shift_left_adjacent (mem : memory) (off : Z) :
  v_shift_left (fst (v_load mem off)) (fst (v_load mem (off - 32))) =
  fst (v_load mem (off - 1)).
Proof.
  apply (nth_ext _ _ 0 0).
  - transitivity 32%nat; [apply mk_vec_length|symmetry; apply v_load_length].
  - intros i Hi. unfold v_shift_left, _mm256_alignr_epi8 in Hi.
    rewrite mk_vec_length in Hi.
    change (lane (v_shift_left (fst (v_load mem off)) (fst (v_load mem (off - 32)))) i =
            lane (fst (v_load mem (off - 1))) i).
    rewrite v_shift_left_lane by exact Hi.
    destruct i as [|j]; rewrite !v_load_lane by lia; do 2 f_equal; lia.
Qed.

(** X3: [LOOKUP16] lays a 16-entry byte table out twice: lane [i] holds entry
    [i mod 16]. *)
Theorem LOOKUP16_lanes (tbl : list Z) (i : nat) :
  length tbl = 16%nat -> Forall (fun b => 0 <= b < 256) tbl -> (i < 32)%nat ->
  lane (LOOKUP16 tbl) i = nth (i mod 16) tbl 0.
Proof.
  intros Hl Hb Hi. unfold LOOKUP16, _mm256_setr_epi8.
  rewrite lane_mk_vec by exact Hi.
  assert (E : nth i (tbl ++ tbl) 0 = nth (i mod 16) tbl 0).
  { destruct (Nat.lt_ge_cases i 16) as [H|H].
    - rewrite app_nth1 by lia. now rewrite Nat.mod_small.
    - rewrite app_nth2 by lia. f_equal. rewrite Hl.
      replace i with (i - 16 + 1 * 16)%nat at 2 by lia.
      rewrite Nat.Div0.mod_add. symmetry. apply Nat.mod_small. lia. }
  rewrite E. apply Z.mod_small.
  rewrite Forall_forall in Hb. apply Hb. apply nth_In.
  rewrite Hl. apply Nat.mod_upper_bound. lia.
Qed.

Lemma LOOKUP16_lanes_witness : lane error_1 30 = nth (30 mod 16) error_1_table 0.
Proof.
  apply (LOOKUP16_lanes error_1_table 30).
  - reflexivity.
  - repeat (constructor; [lia|]). constructor.
  - lia.
Defined.

(** *** The inner loop and the fast path *)

Lemma testbit_mask_of f l :
  forall i, (i < length l)%nat ->
    Z.testbit (mask_of f l) (Z.of_nat i) = f (nth i l 0).
Proof.
  induction l as [|b l IH]; intros i Hi; [simpl in Hi; lia|].
  cbn [mask_of]. rewrite testbit_cons by lia. destruct i as [|i].
  - reflexivity.
  - destruct (Z.eqb_spec (Z.of_nat (S i)) 0); [lia|].
    replace (Z.of_nat (S i) - 1) with (Z.of_nat i) by lia.
    cbn [nth]. apply IH. simpl in Hi. lia.
Qed.

(** X4: after the inner loop, bit [i] of [cont] tells whether byte [i] of the
    chunk is a continuation byte 10xxxxxx, and [req] is the carry plus the
    masks of the 11x, 111x and 1111x bytes shifted by 1, 2 and 3; the
    64-bit additions never wrap. *)
Theorem inner_loop_masks (bytes : vec_t) (last_cont : Z) :
  bytes_vec bytes -> 0 <= last_cont < 2 ^ 32 ->
  let m := cont_masks add64 bytes (uint32 (_mm256_movemask_epi8 bytes)) last_cont in
  (forall i, (i < 32)%nat ->
     Z.testbit (m_cont m) (Z.of_nat i) = is_cont (lane bytes i)) /\
  m_req m = last_cont + 2 * mask_of lead1 bytes + 4 * mask_of lead2 bytes
            + 8 * mask_of lead3 bytes /\
  m_req m < 2 ^ 36.
Proof.
  intros Hb Hc m. subst m. rewrite (high_mask bytes Hb).
  destruct (cont_masks_spec add64 bytes last_cont Hb) as [Ec Er].
  rewrite Ec, Er, (req_of_add64 bytes last_cont Hb Hc).
  split; [|split].
  - intros i Hi. apply testbit_mask_of. rewrite (proj1 Hb). exact Hi.
  - reflexivity.
  - apply (req_of_add_range bytes last_cont Hb Hc).
Qed.

Lemma inner_loop_masks_witness :
  let bytes := fst (v_load (mem_of [xe2; x82; xac; x61]) 0) in
  let m := cont_masks add64 bytes (uint32 (_mm256_movemask_epi8 bytes)) 0 in
  (forall i, (i < 32)%nat ->
     Z.testbit (m_cont m) (Z.of_nat i) = is_cont (lane bytes i)) /\
  m_req m = 0 + 2 * mask_of lead1 bytes + 4 * mask_of lead2 bytes
            + 8 * mask_of lead3 bytes /\
  m_req m < 2 ^ 36.
Proof.
  intros bytes.
  apply (inner_loop_masks bytes 0).
  - apply bytes_vecb_spec. vm_compute. reflexivity.
  - lia.
Defined.

Lemma mask_of_all_false f l :
  Forall (fun b => f b = false) l -> mask_of f l = 0.
Proof.
  induction 1 as [|b l Hb _ IH]; [reflexivity|].
  cbn [mask_of]. now rewrite Hb, IH.
Qed.

Lemma chunk_all_ascii mem data :
  mask_of is_high (fst (v_load mem data)) = 0 <->
  forall i, 0 <= i < 32 -> byte_at mem (data + i) < 128.
Proof.
  split.
  - intros E i Hi. apply mask_of_zero in E. rewrite Forall_forall in E.
    assert (Hin : In (byte_at mem (data + i)) (fst (v_load mem data))).
    { replace i with (Z.of_nat (Z.to_nat i)) by lia.
      unfold byte_at. rewrite <- v_load_lane by lia.
      apply nth_In. rewrite v_load_length. lia. }
    apply E in Hin. unfold is_high in Hin.
    destruct (Z.leb_spec 128 (byte_at mem (data + i))); [discriminate|lia].
  - intros H. apply mask_of_all_false, Forall_forall. intros b Hb.
    apply (In_nth _ _ 0) in Hb. destruct Hb as (i & Hi & <-).
    rewrite v_load_length in Hi.
    change (nth i (fst (v_load mem data)) 0) with (lane (fst (v_load mem data)) i).
    rewrite v_load_lane by exact Hi.
    specialize (H (Z.of_nat i) ltac:(lia)). unfold byte_at in H.
    unfold is_high. destruct (Z.leb_spec 128 (byte_val (mem (data + Z.of_nat i))));
      [lia|reflexivity].
Qed.

Lemma chunk_body_skip_iff (mem : memory) (data last_cont : Z) (next_bytes : vec_t) :
  (fst (chunk_body add64 mem data last_cont next_bytes) = Skip <->
   (forall i, 0 <= i < 32 -> byte_at mem (data + i) < 128) /\ last_cont = 0) /\
  (fst (chunk_body add64 mem data last_cont next_bytes) = Skip ->
   snd (chunk_body add64 mem data last_cont next_bytes) = span data).
Proof.
  rewrite <- chunk_all_ascii.
  unfold chunk_body.
  destruct (v_load mem data) as [bytes rd] eqn:El.
  assert (Hb : bytes_vec bytes).
  { pose proof (v_load_bytes mem data) as H. now rewrite El in H. }
  assert (Hrd : rd = span data) by (unfold v_load in El; congruence).
  cbn [fst]. rewrite (high_mask bytes Hb), lor_eqb_0.
  destruct (Z.eqb_spec (mask_of is_high bytes) 0) as [Eh|Eh];
    destruct (Z.eqb_spec last_cont 0) as [Ec|Ec]; cbn [andb fst snd].
  - split; [|intros _; exact Hrd]. split; [now intros _|reflexivity].
  - split; [split; [|tauto]|];
      repeat match goal with
             | |- context [if ?c then _ else _] => destruct c
             | |- context [let '(_, _) := ?p in _] => destruct p
             end; cbn [fst]; discriminate.
  - split; [split; [|tauto]|];
      repeat match goal with
             | |- context [if ?c then _ else _] => destruct c
             | |- context [let '(_, _) := ?p in _] => destruct p
             end; cbn [fst]; discriminate.
  - split; [split; [|tauto]|];
      repeat match goal with
             | |- context [if ?c then _ else _] => destruct c
             | |- context [let '(_, _) := ?p in _] => destruct p
             end; cbn [fst]; discriminate.
Qed.

(** X5: the loop body takes the fast path ([continue]) exactly when all
    32 bytes of the chunk are below 0x80 and the carry is zero; it then
    reads the chunk only. *)
Theorem fast_path_condition (mem : memory) (data last_cont : Z) (next_bytes : vec_t) :
  (fst (chunk_body add64 mem data last_cont next_bytes) = Skip <->
   (forall i, 0 <= i < 32 -> byte_at mem (data + i) < 128) /\ last_cont = 0) /\
  (fst (chunk_body add64 mem data last_cont next_bytes) = Skip ->
   snd (chunk_body add64 mem data last_cont next_bytes) = span data).
Proof. apply chunk_body_skip_iff. Qed.

Lemma fast_path_condition_witness :
  let mem := mem_of [x68; x65; x6c; x6c; x6f] in
  snd (chunk_body add64 mem 0 0 (_mm256_set1_epi8 0)) = span 0.
Proof.
  intros mem.
  apply (proj2 (fast_path_condition mem 0 0 (_mm256_set1_epi8 0))).
  vm_compute. reflexivity.
Defined.

(** *** Whole runs *)

Lemma chunks_zero len : chunks len = 0%nat -> len <= 0.
Proof.
  intros H. destruct (Z_le_gt_dec len 0); [assumption|].
  rewrite chunks_pos in H by lia. discriminate.
Qed.

Lemma chunks_succ len n : chunks len = S n -> 0 < len /\ chunks (len - 32) = n.
Proof.
  intros H. assert (Hlen : 0 < len).
  { destruct (Z_le_gt_dec len 0); [|lia].
    rewrite chunks_nonpos in H by lia. discriminate. }
  rewrite chunks_pos in H by lia. injection H as H. now split.
Qed.

Lemma chunk_loop_chunks merge mem n :
  forall len len' data last_cont next_bytes,
    chunks len = n -> chunks len' = n ->
    chunk_loop merge mem data len last_cont next_bytes =
    chunk_loop merge mem data len' last_cont next_bytes.
Proof.
  induction n as [|n IH]; intros len len' data lc nb Hn Hn';
    rewrite (chunk_loop_eq merge mem data len), (chunk_loop_eq merge mem data len').
  - apply chunks_zero in Hn, Hn'.
    destruct (len >? 0) eqn:E; [lia|]. destruct (len' >? 0) eqn:E'; [lia|].
    reflexivity.
  - apply chunks_succ in Hn, Hn'. destruct Hn as [Hl Hn], Hn' as [Hl' Hn'].
    destruct (len >? 0) eqn:E; [|lia]. destruct (len' >? 0) eqn:E'; [|lia].
    destruct (chunk_body merge mem data lc nb) as [[| |lc' nb'] rd];
      [|reflexivity|]; now rewrite (IH (len - 32) (len' - 32)).
Qed.

(** X8: the length matters only through the number of 32-byte chunks,
    ceil (len / 32): two lengths with the same number give the same
    verdict and the same reads. *)
Theorem length_through_chunks (mem : memory) (len len' : Z) :
  chunks len = chunks len' -> z_validate_utf8 mem len = z_validate_utf8 mem len'.
Proof.
  intros H. unfold z_validate_utf8, validate_with.
  destruct (v_load mem 0) as [first rd].
  now rewrite (chunk_loop_chunks add64 mem (chunks len') len len').
Qed.

Lemma length_through_chunks_witness :
  z_validate_utf8 (mem_of [xc3; xa9; x80]) 2 = z_validate_utf8 (mem_of [xc3; xa9; x80]) 32.
Proof. apply (length_through_chunks (mem_of [xc3; xa9; x80]) 2 32). reflexivity. Defined.




Lemma chunk_body_skip mem data next_bytes :
  (forall i, 0 <= i < 32 -> byte_at mem (data + i) < 128) ->
  chunk_body add64 mem data 0 next_bytes = (Skip, span data).
Proof.
  intros H.
  destruct (chunk_body_skip_iff mem data 0 next_bytes) as [[_ H1] H2].
  specialize (H1 (conj H eq_refl)). specialize (H2 H1).
  destruct (chunk_body add64 mem data 0 next_bytes) as [r rd].
  cbn [fst snd] in *. now subst.
Qed.

Lemma chunk_loop_ascii mem n :
  forall j len next_bytes,
    chunks len = n ->
    (forall i, 32 * Z.of_nat j <= i < 32 * Z.of_nat (j + n) -> byte_at mem i < 128) ->
    chunk_loop add64 mem (32 * Z.of_nat j) len 0 next_bytes =
    (1, flat_map (fun k => span (32 * Z.of_nat k)) (seq j n)).
Proof.
  induction n as [|n IH]; intros j len nb Hn Ha; rewrite chunk_loop_eq.
  - apply chunks_zero in Hn. destruct (len >? 0) eqn:E; [lia|]. reflexivity.
  - apply chunks_succ in Hn. destruct Hn as [Hl Hn].
    destruct (len >? 0) eqn:E; [|lia].
    rewrite chunk_body_skip by (intros i Hi; apply Ha; lia).
    replace (32 * Z.of_nat j + 32) with (32 * Z.of_nat (S j)) by lia.
    rewrite (IH (S j) (len - 32) nb Hn) by (intros i Hi; apply Ha; lia).
    reflexivity.
Qed.

(** X7: pure ASCII input: when every byte of the chunks is below 0x80 the
    function returns 1, and besides the load before the loop it reads each
    chunk once and nothing else (no load at [data + 31]). *)
Theorem ascii_input (mem : memory) (len : Z) :
  (forall i, 0 <= i < 32 * Z.of_nat (chunks len) -> byte_at mem i < 128) ->
  verdict mem len = 1 /\
  reads mem len =
  span 0 ++ flat_map (fun k => span (32 * Z.of_nat k)) (seq 0 (chunks len)).
Proof.
  intros H. unfold verdict, reads, z_validate_utf8, validate_with.
  pose proof (chunk_loop_ascii mem (chunks len) 0 len
                (v_shift_left (fst (v_load mem 0)) (_mm256_set1_epi8 0))
                eq_refl) as E.
  change (32 * Z.of_nat 0) with 0 in E.
  destruct (v_load mem 0) as [first rd] eqn:El. cbn [fst] in E.
  rewrite E by (intros i Hi; apply H; lia).
  assert (rd = span 0) by (unfold v_load in El; congruence). subst rd.
  split; reflexivity.
Qed.

Lemma ascii_input_witness :
  verdict (mem_of (repeat x61 40)) 40 = 1 /\
  reads (mem_of (repeat x61 40)) 40 =
  span 0 ++ flat_map (fun k => span (32 * Z.of_nat k)) (seq 0 (chunks 40)).
Proof.
  apply (ascii_input (mem_of (repeat x61 40)) 40).
  intros i Hi. change (chunks 40) with 2%nat in Hi.
  replace i with (Z.of_nat (Z.to_nat i)) by lia.
  assert (Hn : (Z.to_nat i < 64)%nat) by lia.
  generalize (Z.to_nat i) Hn. intros n H.
  do 64 (destruct n as [|n]; [vm_compute; reflexivity|]). lia.
Defined.

(** *** The shifted view *)

(** At every iteration that is reached, each lane of [next_bytes] is the
    byte before the corresponding byte of the chunk, or else a byte that
    is no leader. *)
Lemma state_at_view mem k :
  forall last_cont next_bytes,
    state_at add64 mem k = Some (last_cont, next_bytes) ->
    forall i, (i < 32)%nat ->
      lane next_bytes i = prev_byte mem (32 * Z.of_nat k + Z.of_nat i) \/
      lead1 (lane next_bytes i) = false.
Proof.
  induction k as [|k IH]; intros lc nb Hs i Hi.
  - left. apply (state_at_true_view mem 0 lc nb Hs); [now left|exact Hi].
  - pose proof Hs as HS.
    rewrite (proj2 (state_at_ref add64 mem k (or_introl eq_refl))) in HS.
    destruct (state_at add64 mem k) as [[lc0 nb0]|] eqn:Hs0; [|discriminate].
    destruct (state_at_count mem k _ _ Hs0) as (r & Hr & -> & Hc).
    set (chunk := fst (v_load mem (32 * Z.of_nat k))) in *.
    unfold chunk_ref in HS.
    destruct ((mask_of is_high chunk =? 0) && (Z.ones r =? 0)) eqn:Esk.
    + apply andb_true_iff in Esk. destruct Esk as [Eh E0].
      apply Z.eqb_eq in Eh, E0.
      assert (r = 0) by (apply ones_inj; [lia|lia|exact E0]). subst r.
      assert (Enb : nb = nb0) by congruence. subst nb0.
      right. destruct (IH _ _ eq_refl i Hi) as [Et|Eh']; [|exact Eh'].
      rewrite Et. destruct i as [|j].
      * replace (32 * Z.of_nat k + Z.of_nat 0) with (32 * Z.of_nat k) by lia.
        now apply prev_of_chunk.
      * replace (32 * Z.of_nat k + Z.of_nat (S j))
          with (32 * Z.of_nat k + Z.of_nat j + 1) by lia.
        rewrite prev_byte_succ by lia.
        pose proof (proj1 (chunk_all_ascii mem (32 * Z.of_nat k)) Eh
                      (Z.of_nat j) ltac:(lia)) as Hlt.
        unfold lead1. destruct (Z.leb_spec 192 (byte_at mem (32 * Z.of_nat k + Z.of_nat j)));
          [lia|reflexivity].
    + left.
      destruct (scan Z.add (Z.ones r) chunk); [|discriminate].
      destruct (pairs_clean chunk nb0); [|discriminate].
      assert (E : nb = fst (v_load mem (32 * Z.of_nat k + 31))) by congruence.
      rewrite E, v_load_lane by exact Hi.
      replace (32 * Z.of_nat (S k) + Z.of_nat i)
        with (32 * Z.of_nat k + 31 + Z.of_nat i + 1) by lia.
      rewrite prev_byte_succ by lia. reflexivity.
Qed.

Lemma testz_values a b : _mm256_testz_si256 a b = 1 \/ _mm256_testz_si256 a b = 0.
Proof. unfold _mm256_testz_si256. destruct (forallb _ _); [now left|now right]. Qed.

(** X10: after the fast path skips a chunk, [next_bytes] is not refreshed, and
    the table check of the next round cannot fail, whatever bytes the next
    chunk holds: every lane of the stale [next_bytes] is a byte that is no
    leader, so all lookups in [error_1] give zero. *)
Theorem stale_view_never_rejects (mem : memory) (k : nat)
    (last_cont : Z) (next_bytes : vec_t) :
  state_at add64 mem k = Some (last_cont, next_bytes) ->
  fst (chunk_body add64 mem (32 * Z.of_nat k) last_cont next_bytes) = Skip ->
  state_at add64 mem (S k) = Some (last_cont, next_bytes) /\
  forall bytes, bytes_vec bytes ->
    _mm256_testz_si256 (fst (error_vec bytes next_bytes))
                       (snd (error_vec bytes next_bytes)) = 1.
Proof.
  intros Hs Hskip. split.
  - cbn [state_at]. now rewrite Hs, Hskip.
  - intros bytes Hb.
    pose proof (proj1 (state_at_ref add64 mem k (or_introl eq_refl))) as Hinv.
    rewrite Hs in Hinv. destruct Hinv as [_ Hnb].
    apply (proj1 (chunk_body_skip_iff mem _ _ _)) in Hskip.
    destruct Hskip as [Hascii ->].
    destruct (state_at_count mem k _ _ Hs) as (r & Hr & E0 & Hc).
    assert (r = 0) by (apply ones_inj; [lia|lia|now rewrite <- E0]). subst r.
    assert (Hpc : pairs_clean bytes next_bytes = true).
    { unfold pairs_clean. apply forallb_forall. intros i Hi.
      apply in_seq in Hi. apply Z.eqb_eq.
      apply err_bits_harmless; [apply Hnb; lia|apply Hb; lia|].
      destruct (state_at_view mem k _ _ Hs i ltac:(lia)) as [Et|Eh]; [|exact Eh].
      rewrite Et. destruct i as [|j].
      - replace (32 * Z.of_nat k + Z.of_nat 0) with (32 * Z.of_nat k) by lia.
        now apply prev_of_chunk.
      - replace (32 * Z.of_nat k + Z.of_nat (S j))
          with (32 * Z.of_nat k + Z.of_nat j + 1) by lia.
        rewrite prev_byte_succ by lia.
        pose proof (Hascii (Z.of_nat j) ltac:(lia)) as Hlt.
        unfold lead1.
        destruct (Z.leb_spec 192 (byte_at mem (32 * Z.of_nat k + Z.of_nat j)));
          [lia|reflexivity]. }
    pose proof (testz_pairs_clean bytes next_bytes Hb Hnb) as Ht.
    rewrite Hpc in Ht. cbn [negb] in Ht.
    destruct (testz_values (fst (error_vec bytes next_bytes))
                           (snd (error_vec bytes next_bytes))) as [E|E];
      [exact E|]. rewrite E in Ht. discriminate.
Qed.

Lemma stale_view_never_rejects_witness :
  let mem := mem_of (repeat x61 32 ++ [xc0; x80]) in
  let next_bytes := v_shift_left (fst (v_load mem 0)) (_mm256_set1_epi8 0) in
  state_at add64 mem 1 = Some (0, next_bytes) /\
  forall bytes, bytes_vec bytes ->
    _mm256_testz_si256 (fst (error_vec bytes next_bytes))
                       (snd (error_vec bytes next_bytes)) = 1.
Proof.
  intros mem next_bytes.
  apply (stale_view_never_rejects mem 0 0 next_bytes).
  - reflexivity.
  - vm_compute. reflexivity.
Defined.

(** *** Accepted inputs, byte by byte *)

Lemma verdict_count mem len :
  verdict mem len = 1 -> count_scan 0 (bytes_upto mem (32 * chunks len)) = Some 0.
Proof.
  rewrite verdict_final. intros H.
  destruct (state_at add64 mem (chunks len)) as [[lc nb]|] eqn:Hs;
    [|discriminate].
  destruct (state_at_count mem _ _ _ Hs) as (r & Hr & -> & Hc).
  cbn [final] in H.
  destruct (Z.eqb_spec (Z.ones r) 0) as [E|]; [|discriminate].
  assert (r = 0) by (apply ones_inj; [lia|lia|exact E]). now subst r.
Qed.

Lemma bytes_upto_snoc mem g :
  bytes_upto mem (S g) = bytes_upto mem g ++ [byte_at mem (Z.of_nat g)].
Proof. unfold bytes_upto. now rewrite seq_S, map_app. Qed.

Lemma count_upto_required mem g r j :
  count_scan 0 (bytes_upto mem g) = Some r -> 0 <= j ->
  (j <? r) =
  required_after (prev_byte mem (Z.of_nat g - 2)) (prev_byte mem (Z.of_nat g - 1))
                 (prev_byte mem (Z.of_nat g)) j.
Proof.
  intros H Hj. destruct g as [|[|[|g]]].
  - change (count_scan 0 ([] ++ [0; 0; 0]) = Some r) in H.
    apply (count_scan_last3 _ _ _ _ 0 r j ltac:(lia) H Hj).
  - change (count_scan 0 ([0] ++ [0; 0; byte_at mem 0]) = Some r) in H.
    apply (count_scan_last3 _ _ _ _ 0 r j ltac:(lia) H Hj).
  - change (count_scan 0 ([0; 0] ++ [0; byte_at mem 0; byte_at mem 1]) = Some r) in H.
    apply (count_scan_last3 _ _ _ _ 0 r j ltac:(lia) H Hj).
  - rewrite !bytes_upto_snoc, <- !app_assoc in H. cbn [app] in H.
    replace (Z.of_nat (S (S (S g))) - 2) with (Z.of_nat g + 1) by lia.
    replace (Z.of_nat (S (S (S g))) - 1) with (Z.of_nat (S g) + 1) by lia.
    replace (Z.of_nat (S (S (S g)))) with (Z.of_nat (S (S g)) + 1) by lia.
    rewrite !prev_byte_succ by lia.
    apply (count_scan_last3 _ _ _ _ 0 r j ltac:(lia) H Hj).
Qed.

(** X11: in an accepted input a byte is a continuation byte 10xxxxxx exactly
    when one of the three bytes before it is a leader that reaches it
    (11x the next byte, 111x the next two, 1111x the next three); bytes
    before the buffer count as zero. *)
Theorem continuation_where_required (mem : memory) (len g : Z) :
  verdict mem len = 1 -> 0 <= g < 32 * Z.of_nat (chunks len) ->
  is_cont (byte_at mem g) =
  required_after (prev_byte mem (g - 2)) (prev_byte mem (g - 1)) (prev_byte mem g) 0.
Proof.
  intros Hv Hg. apply verdict_count in Hv.
  set (n := Z.to_nat g).
  rewrite (bytes_upto_app mem n (32 * chunks len)) in Hv by lia.
  apply count_scan_prefix in Hv. destruct Hv as (r & Hr & Hrest).
  pose proof (count_scan_range _ 0 r ltac:(lia) Hr) as Hrr.
  destruct (32 * chunks len - n)%nat as [|m] eqn:Em; [lia|].
  cbn [seq map] in Hrest.
  destruct (count_step_inv _ _ _ _ Hrr Hrest) as (r1 & _ & _ & C).
  pose proof (count_upto_required mem n r 0 Hr ltac:(lia)) as Hreq.
  replace (Z.of_nat n) with g in * by lia.
  rewrite <- Hreq.
  destruct C as [(-> & _ & H1 & _) | (-> & -> & _)].
  - destruct (Z.ltb_spec 0 r); [reflexivity|lia].
  - reflexivity.
Qed.

Lemma continuation_where_required_witness :
  let mem := mem_of [x61; xe2; x82; xac] in
  is_cont (byte_at mem 3) =
  required_after (prev_byte mem (3 - 2)) (prev_byte mem (3 - 1)) (prev_byte mem 3) 0.
Proof.
  intros mem. apply (continuation_where_required mem 4 3).
  - reflexivity.
  - change (chunks 4) with 1%nat. lia.
Defined.

(** ** The function with the aligned loads of the source *)

Lemma aligned_load_ok addr mem off :
  (addr + off) mod 32 = 0 -> aligned_load addr mem off = Some (fst (v_load mem off)).
Proof. intros H. unfold aligned_load. now rewrite H. Qed.

Lemma aligned_load_fault addr mem off :
  (addr + off) mod 32 <> 0 -> aligned_load addr mem off = None.
Proof.
  intros H. unfold aligned_load.
  destruct (Z.eqb_spec ((addr + off) mod 32) 0); [contradiction|reflexivity].
Qed.

(** When [data] is aligned, [data + 31] is not: the load of line 221
    faults. *)
Lemma aligned_load_31 addr mem data :
  (addr + data) mod 32 = 0 -> aligned_load addr mem (data + 31) = None.
Proof.
  intros H. apply aligned_load_fault.
  replace (addr + (data + 31)) with (31 + (addr + data)) by lia.
  rewrite Z.add_mod, H by lia. discriminate.
Qed.

Lemma aligned_next addr data :
  (addr + data) mod 32 = 0 -> (addr + (data + 32)) mod 32 = 0.
Proof.
  intros H. replace (addr + (data + 32)) with (addr + data + 1 * 32) by lia.
  now rewrite Z.mod_add by lia.
Qed.

Lemma aligned_chunk addr j :
  addr mod 32 = 0 -> (addr + 32 * Z.of_nat j) mod 32 = 0.
Proof.
  intros H. replace (addr + 32 * Z.of_nat j) with (addr + Z.of_nat j * 32) by lia.
  now rewrite Z.mod_add by lia.
Qed.

(** A round on an aligned chunk decides as [chunk_body] does, up to the
    load of line 221. *)
Lemma chunk_body_at_aligned addr mem data last_cont next_bytes :
  (addr + data) mod 32 = 0 ->
  chunk_body_at addr mem data last_cont next_bytes =
  match fst (chunk_body add64 mem data last_cont next_bytes) with
  | Pass _ _ => None
  | r => Some r
  end.
Proof.
  intros H. unfold chunk_body_at, chunk_body.
  rewrite (aligned_load_ok _ _ _ H), (aligned_load_31 _ _ _ H).
  unfold v_load. cbn [fst snd].
  repeat match goal with
         | |- context [if ?c then _ else _] => destruct c
         | |- context [let '(_, _) := ?p in _] => destruct p
         end; reflexivity.
Qed.

Lemma chunk_body_at_misaligned addr mem data last_cont next_bytes :
  (addr + data) mod 32 <> 0 ->
  chunk_body_at addr mem data last_cont next_bytes = None.
Proof.
  intros H. unfold chunk_body_at. now rewrite aligned_load_fault.
Qed.

Lemma chunk_loop_at_eq addr mem data len last_cont next_bytes :
  chunk_loop_at addr mem data len last_cont next_bytes =
  if len >? 0 then
    match chunk_body_at addr mem data last_cont next_bytes with
    | None => Faulted
    | Some Reject => Returned 0
    | Some Skip =>
        chunk_loop_at addr mem (data + 32) (len - 32) last_cont next_bytes
    | Some (Pass last_cont' next_bytes') =>
        chunk_loop_at addr mem (data + 32) (len - 32) last_cont' next_bytes'
    end
  else Returned (Z.b2z (last_cont =? 0)).
Proof.
  rewrite chunk_loop_at_equation_1.
  destruct (Z_gt_dec len 0); destruct (len >? 0) eqn:E; try lia; reflexivity.
Qed.

Lemma chunk_loop_at_aligned addr mem data len last_cont next_bytes :
  (addr + data) mod 32 = 0 ->
  chunk_loop_at addr mem data len last_cont next_bytes =
  if len >? 0 then
    match fst (chunk_body add64 mem data last_cont next_bytes) with
    | Skip => chunk_loop_at addr mem (data + 32) (len - 32) last_cont next_bytes
    | Reject => Returned 0
    | Pass _ _ => Faulted
    end
  else Returned (Z.b2z (last_cont =? 0)).
Proof.
  intros H. rewrite chunk_loop_at_eq, chunk_body_at_aligned by exact H.
  destruct (len >? 0); [|reflexivity].
  now destruct (fst (chunk_body add64 mem data last_cont next_bytes)).
Qed.

(** *** What the function returns, it returns with unaligned loads too *)

Lemma chunk_loop_at_returns addr mem n :
  forall data len last_cont next_bytes v,
    chunks len = n ->
    chunk_loop_at addr mem data len last_cont next_bytes = Returned v ->
    fst (chunk_loop add64 mem data len last_cont next_bytes) = v.
Proof.
  induction n as [|n IH]; intros data len lc nb v Hn H;
    rewrite chunk_loop_eq; rewrite chunk_loop_at_eq in H.
  - apply chunks_zero in Hn. destruct (len >? 0) eqn:E; [lia|].
    cbn [fst]. congruence.
  - apply chunks_succ in Hn. destruct Hn as [Hl Hn].
    destruct (len >? 0) eqn:E; [|lia].
    destruct (Z.eq_dec ((addr + data) mod 32) 0) as [Ha|Ha].
    + rewrite chunk_body_at_aligned in H by exact Ha.
      destruct (chunk_body add64 mem data lc nb) as [[| |lc' nb'] rd];
        cbn [fst] in H.
      * specialize (IH _ _ _ _ _ Hn H).
        destruct (chunk_loop add64 mem (data + 32) (len - 32) lc nb).
        exact IH.
      * cbn [fst]. congruence.
      * discriminate.
    + rewrite chunk_body_at_misaligned in H by exact Ha. discriminate.
Qed.

Lemma z_validate_utf8_at_returns addr mem len v :
  z_validate_utf8_at addr mem len = Returned v ->
  verdict mem len = v /\ addr mod 32 = 0.
Proof.
  unfold z_validate_utf8_at, verdict, z_validate_utf8, validate_with.
  destruct (Z.eq_dec (addr mod 32) 0) as [Ha|Ha].
  - rewrite aligned_load_ok by (now rewrite Z.add_0_r).
    intros H. split; [|exact Ha].
    apply (chunk_loop_at_returns addr mem (chunks len)) in H; [|reflexivity].
    destruct (v_load mem 0) as [first rd]. cbn [fst] in H.
    destruct (chunk_loop add64 mem 0 len 0 _). exact H.
  - rewrite aligned_load_fault by (now rewrite Z.add_0_r). discriminate.
Qed.

Lemma z_validate_utf8_at_misaligned addr mem len :
  addr mod 32 <> 0 -> z_validate_utf8_at addr mem len = Faulted.
Proof.
  intros Ha. unfold z_validate_utf8_at.
  now rewrite aligned_load_fault by (now rewrite Z.add_0_r).
Qed.

Lemma z_validate_utf8_at_loop addr mem len :
  addr mod 32 = 0 ->
  z_validate_utf8_at addr mem len =
  chunk_loop_at addr mem 0 len 0
    (v_shift_left (fst (v_load mem 0)) (_mm256_set1_epi8 0)).
Proof.
  intros Ha. unfold z_validate_utf8_at.
  now rewrite aligned_load_ok by (now rewrite Z.add_0_r).
Qed.

(** *** Pure ASCII chunks *)

Lemma chunk_loop_at_ascii addr mem n :
  forall j len next_bytes,
    addr mod 32 = 0 -> chunks len = n ->
    (forall i, 32 * Z.of_nat j <= i < 32 * Z.of_nat (j + n) -> byte_at mem i < 128) ->
    chunk_loop_at addr mem (32 * Z.of_nat j) len 0 next_bytes = Returned 1.
Proof.
  induction n as [|n IH]; intros j len nb Ha Hn Hb;
    rewrite chunk_loop_at_aligned by (now apply aligned_chunk).
  - apply chunks_zero in Hn. destruct (len >? 0) eqn:E; [lia|]. reflexivity.
  - apply chunks_succ in Hn. destruct Hn as [Hl Hn].
    destruct (len >? 0) eqn:E; [|lia].
    rewrite chunk_body_skip by (intros i Hi; apply Hb; lia). cbn [fst].
    replace (32 * Z.of_nat j + 32) with (32 * Z.of_nat (S j)) by lia.
    apply IH; [exact Ha|exact Hn|]. intros i Hi. apply Hb. lia.
Qed.

Lemma chunk_loop_at_one addr mem n :
  forall j len last_cont next_bytes,
    addr mod 32 = 0 -> chunks len = n ->
    chunk_loop_at addr mem (32 * Z.of_nat j) len last_cont next_bytes = Returned 1 ->
    forall i, 32 * Z.of_nat j <= i < 32 * Z.of_nat (j + n) -> byte_at mem i < 128.
Proof.
  induction n as [|n IH]; intros j len lc nb Ha Hn H i Hi; [lia|].
  rewrite chunk_loop_at_aligned in H by (now apply aligned_chunk).
  apply chunks_succ in Hn. destruct Hn as [Hl Hn].
  destruct (len >? 0) eqn:E; [|lia].
  destruct (chunk_body_skip_iff mem (32 * Z.of_nat j) lc nb) as [[Hs _] _].
  destruct (fst (chunk_body add64 mem (32 * Z.of_nat j) lc nb));
    [|discriminate|discriminate].
  destruct (Hs eq_refl) as [Hb _].
  destruct (Z_lt_ge_dec i (32 * Z.of_nat j + 32)) as [Hlt|Hge].
  - replace i with (32 * Z.of_nat j + (i - 32 * Z.of_nat j)) by lia.
    apply Hb. lia.
  - replace (32 * Z.of_nat j + 32) with (32 * Z.of_nat (S j)) in H by lia.
    apply (IH (S j) (len - 32) lc nb Ha Hn H). lia.
Qed.

Lemma returns_one_ascii addr mem len :
  z_validate_utf8_at addr mem len = Returned 1 <->
  addr mod 32 = 0 /\
  forall i, 0 <= i < 32 * Z.of_nat (chunks len) -> byte_at mem i < 128.
Proof.
  split.
  - intros H. destruct (z_validate_utf8_at_returns _ _ _ _ H) as [_ Ha].
    split; [exact Ha|]. rewrite z_validate_utf8_at_loop in H by exact Ha.
    intros i Hi.
    apply (chunk_loop_at_one addr mem (chunks len) 0 len _ _ Ha eq_refl H).
    simpl (0 + chunks len)%nat. lia.
  - intros [Ha Hb]. rewrite z_validate_utf8_at_loop by exact Ha.
    apply (chunk_loop_at_ascii addr mem (chunks len) 0 len _ Ha eq_refl).
    intros i Hi. apply Hb. simpl (0 + chunks len)%nat in Hi. lia.
Qed.

(** *** Runs in which no chunk is rejected *)

Lemma chunk_loop_at_no_reject addr mem n :
  forall j len last_cont next_bytes,
    addr mod 32 = 0 -> chunks len = n ->
    state_at add64 mem j = Some (last_cont, next_bytes) ->
    state_at add64 mem (j + n) <> None ->
    chunk_loop_at addr mem (32 * Z.of_nat j) len last_cont next_bytes = Faulted \/
    (forall i, 32 * Z.of_nat j <= i < 32 * Z.of_nat (j + n) -> byte_at mem i < 128).
Proof.
  induction n as [|n IH]; intros j len lc nb Ha Hn Hj Hend; [right; lia|].
  rewrite chunk_loop_at_aligned by (now apply aligned_chunk).
  apply chunks_succ in Hn. destruct Hn as [Hl Hn].
  destruct (len >? 0) eqn:E; [|lia].
  assert (HS : state_at add64 mem (S j) =
               match fst (chunk_body add64 mem (32 * Z.of_nat j) lc nb) with
               | Reject => None
               | Skip => Some (lc, nb)
               | Pass lc' nb' => Some (lc', nb')
               end) by (cbn [state_at]; now rewrite Hj).
  replace (j + S n)%nat with (S j + n)%nat in Hend by lia.
  destruct (chunk_body_skip_iff mem (32 * Z.of_nat j) lc nb) as [[Hs _] _].
  destruct (fst (chunk_body add64 mem (32 * Z.of_nat j) lc nb)).
  - destruct (Hs eq_refl) as [Hb _].
    replace (32 * Z.of_nat j + 32) with (32 * Z.of_nat (S j)) by lia.
    destruct (IH (S j) (len - 32) lc nb Ha Hn HS Hend) as [F|A]; [now left|].
    right. intros i Hi.
    destruct (Z_lt_ge_dec i (32 * Z.of_nat j + 32)) as [Hlt|Hge].
    + replace i with (32 * Z.of_nat j + (i - 32 * Z.of_nat j)) by lia.
      apply Hb. lia.
    + apply A. lia.
  - exfalso. apply Hend. now apply state_at_None.
  - now left.
Qed.

Lemma valid_faults addr mem len h :
  valid_utf8 (bytes_upto mem (32 * chunks len)) ->
  0 <= h < 32 * Z.of_nat (chunks len) -> 128 <= byte_at mem h ->
  z_validate_utf8_at addr mem len = Faulted.
Proof.
  intros Hv Hh Hb.
  destruct (Z.eq_dec (addr mod 32) 0) as [Ha|Ha];
    [|now apply z_validate_utf8_at_misaligned].
  rewrite z_validate_utf8_at_loop by exact Ha.
  apply valid_utf8_verdict in Hv. rewrite verdict_final in Hv.
  destruct (chunk_loop_at_no_reject addr mem (chunks len) 0 len 0 _ Ha
              eq_refl eq_refl) as [F|A].
  - simpl (0 + chunks len)%nat. intros E. rewrite E in Hv. discriminate.
  - exact F.
  - specialize (A h). simpl (0 + chunks len)%nat in A. lia.
Qed.

(** *** A leader whose continuation byte is missing *)

Lemma count_continuation mem (m : nat) g r :
  count_scan 0 (bytes_upto mem m) = Some r -> 0 <= g < Z.of_nat m ->
  is_cont (byte_at mem g) =
  required_after (prev_byte mem (g - 2)) (prev_byte mem (g - 1)) (prev_byte mem g) 0.
Proof.
  intros Hv Hg. set (n := Z.to_nat g).
  rewrite (bytes_upto_app mem n m) in Hv by lia.
  apply count_scan_prefix in Hv. destruct Hv as (r0 & Hr & Hrest).
  pose proof (count_scan_range _ 0 r0 ltac:(lia) Hr) as Hrr.
  destruct (m - n)%nat as [|q] eqn:Em; [lia|].
  cbn [seq map] in Hrest.
  destruct (count_step_inv _ _ _ _ Hrr Hrest) as (r1 & _ & _ & C).
  pose proof (count_upto_required mem n r0 0 Hr ltac:(lia)) as Hreq.
  replace (Z.of_nat n) with g in * by lia.
  rewrite <- Hreq.
  destruct C as [(-> & _ & H1 & _) | (-> & -> & _)].
  - destruct (Z.ltb_spec 0 r0); [reflexivity|lia].
  - reflexivity.
Qed.

(** A leader at [i] that reaches [j] makes [j] a required position, seen
    from [j] or from any place between the leader and [j]. *)
Lemma required_by_leader mem i j g :
  0 <= i -> i < g <= j -> j <= i + reach (byte_at mem i) ->
  required_after (prev_byte mem (g - 2)) (prev_byte mem (g - 1)) (prev_byte mem g)
                 (j - g) = true.
Proof.
  intros Hi Hg Hj. pose proof (reach_range (byte_at mem i)) as Hr.
  unfold required_after.
  assert (C : g = i + 1 \/ g = i + 2 \/ g = i + 3) by lia.
  destruct C as [-> | [-> | ->]].
  - rewrite prev_byte_succ by lia.
    destruct (Z.leb_spec (j - (i + 1) + 1) (reach (byte_at mem i))); [reflexivity|lia].
  - replace (i + 2 - 1) with (i + 1) by lia. rewrite prev_byte_succ by lia.
    destruct (Z.leb_spec (j - (i + 2) + 2) (reach (byte_at mem i)));
      [apply orb_true_iff; left; apply orb_true_r|lia].
  - replace (i + 3 - 2) with (i + 1) by lia. rewrite prev_byte_succ by lia.
    destruct (Z.leb_spec (j - (i + 3) + 3) (reach (byte_at mem i)));
      [apply orb_true_r|lia].
Qed.

(** In an accepted run every position a leader reaches lies in the chunks
    and holds a continuation byte. *)
Lemma verdict_leader_served mem len i j :
  verdict mem len = 1 ->
  0 <= i < 32 * Z.of_nat (chunks len) ->
  i < j <= i + reach (byte_at mem i) ->
  j < 32 * Z.of_nat (chunks len) /\ is_cont (byte_at mem j) = true.
Proof.
  intros Hv Hi Hj. apply verdict_count in Hv.
  pose proof (reach_range (byte_at mem i)) as Hr.
  destruct (Z_lt_ge_dec j (32 * Z.of_nat (chunks len))) as [Hlt|Hge].
  - split; [exact Hlt|].
    rewrite (count_continuation mem (32 * chunks len) j 0 Hv) by lia.
    pose proof (required_by_leader mem i j j ltac:(lia) ltac:(lia) ltac:(lia)) as R.
    now rewrite Z.sub_diag in R.
  - exfalso.
    pose proof (count_upto_required mem (32 * chunks len) 0
                  (j - Z.of_nat (32 * chunks len)) Hv ltac:(lia)) as Hreq.
    rewrite (required_by_leader mem i j (Z.of_nat (32 * chunks len))) in Hreq by lia.
    destruct (Z.ltb_spec (j - Z.of_nat (32 * chunks len)) 0); [lia|discriminate].
Qed.

(** *** Pure ASCII chunks before the first chunk with a byte of 0x80 or
    more *)

Lemma state_at_ascii mem k :
  (forall i, 0 <= i < 32 * Z.of_nat k -> byte_at mem i < 128) ->
  state_at add64 mem k =
  Some (0, v_shift_left (fst (v_load mem 0)) (_mm256_set1_epi8 0)).
Proof.
  induction k as [|k IH]; intros H; [reflexivity|].
  cbn [state_at]. rewrite IH by (intros i Hi; apply H; lia).
  rewrite chunk_body_skip by (intros i Hi; apply H; lia). reflexivity.
Qed.

Lemma chunk_loop_at_skip addr mem k :
  forall j len next_bytes,
    addr mod 32 = 0 -> 32 * Z.of_nat k < len ->
    (forall i, 32 * Z.of_nat j <= i < 32 * Z.of_nat (j + k) -> byte_at mem i < 128) ->
    chunk_loop_at addr mem (32 * Z.of_nat j) len 0 next_bytes =
    chunk_loop_at addr mem (32 * Z.of_nat (j + k)) (len - 32 * Z.of_nat k) 0 next_bytes.
Proof.
  induction k as [|k IH]; intros j len nb Ha Hl Hb.
  - rewrite Nat.add_0_r. f_equal. lia.
  - rewrite chunk_loop_at_aligned by (now apply aligned_chunk).
    destruct (len >? 0) eqn:E; [|lia].
    rewrite chunk_body_skip by (intros i Hi; apply Hb; lia). cbn [fst].
    replace (32 * Z.of_nat j + 32) with (32 * Z.of_nat (S j)) by lia.
    rewrite (IH (S j) (len - 32) nb Ha) by (try lia; intros i Hi; apply Hb; lia).
    f_equal; [f_equal; lia|lia].
Qed.

Lemma missing_continuation_returns_0 addr mem len i j :
  addr mod 32 = 0 ->
  0 <= i -> i < j <= i + reach (byte_at mem i) ->
  j < 32 * Z.of_nat (chunks len) ->
  is_cont (byte_at mem j) = false ->
  (forall h, 0 <= h < 32 * (j / 32) -> byte_at mem h < 128) ->
  z_validate_utf8_at addr mem len = Returned 0.
Proof.
  intros Ha Hi Hj HjN Hc Hasc.
  set (k := Z.to_nat (j / 32)).
  assert (Hk : Z.of_nat k = j / 32).
  { subst k. rewrite Z2Nat.id; [reflexivity|apply Z.div_pos; lia]. }
  assert (Hjk : 32 * Z.of_nat k <= j < 32 * Z.of_nat k + 32).
  { rewrite Hk. pose proof (Z.div_mod j 32 ltac:(lia)) as D.
    pose proof (Z.mod_pos_bound j 32 ltac:(lia)). lia. }
  pose proof (reach_range (byte_at mem i)) as Hr.
  assert (Hlead : 128 <= byte_at mem i).
  { assert (R : 1 <= reach (byte_at mem i)) by lia.
    unfold reach, lead1, lead2, lead3 in R.
    destruct (Z.leb_spec 192 (byte_at mem i)); [lia|].
    destruct (Z.leb_spec 224 (byte_at mem i)); [lia|].
    destruct (Z.leb_spec 240 (byte_at mem i)); [lia|]. simpl in R. lia. }
  assert (Hik : 32 * Z.of_nat k <= i).
  { destruct (Z_lt_ge_dec i (32 * Z.of_nat k)) as [Hlt|]; [|lia].
    specialize (Hasc i). rewrite <- Hk in Hasc. lia. }
  assert (Hlen : 32 * Z.of_nat k < len).
  { destruct (Z_lt_ge_dec (32 * Z.of_nat k) len) as [|Hge]; [assumption|].
    exfalso. assert (Hch : (chunks len <= k)%nat); [|lia].
    unfold chunks.
    assert ((len + 31) / 32 < Z.of_nat k + 1)
      by (apply Z.div_lt_upper_bound; lia).
    lia. }
  rewrite z_validate_utf8_at_loop by exact Ha.
  change 0 with (32 * Z.of_nat 0) at 1.
  rewrite (chunk_loop_at_skip addr mem k 0 len _ Ha Hlen)
    by (intros h Hh; apply Hasc; rewrite <- Hk; simpl (0 + k)%nat in Hh; lia).
  simpl (0 + k)%nat.
  rewrite chunk_loop_at_aligned by (now apply aligned_chunk).
  destruct (len - 32 * Z.of_nat k >? 0) eqn:E; [|lia].
  pose proof (state_at_ascii mem k
                ltac:(intros h Hh; apply Hasc; rewrite <- Hk; lia)) as Hst.
  set (nb := v_shift_left (fst (v_load mem 0)) (_mm256_set1_epi8 0)) in *.
  assert (HS : state_at add64 mem (S k) =
               match fst (chunk_body add64 mem (32 * Z.of_nat k) 0 nb) with
               | Reject => None
               | Skip => Some (0, nb)
               | Pass lc' nb' => Some (lc', nb')
               end) by (cbn [state_at]; now rewrite Hst).
  destruct (chunk_body_skip_iff mem (32 * Z.of_nat k) 0 nb) as [[Hs _] _].
  destruct (fst (chunk_body add64 mem (32 * Z.of_nat k) 0 nb)) as [| |lc' nb'].
  - destruct (Hs eq_refl) as [Hb _].
    specialize (Hb (i - 32 * Z.of_nat k) ltac:(lia)).
    replace (32 * Z.of_nat k + (i - 32 * Z.of_nat k)) with i in Hb by lia. lia.
  - reflexivity.
  - exfalso.
    destruct (state_at_count mem _ _ _ HS) as (r & _ & _ & Hcount).
    rewrite (count_continuation mem (32 * S k) j r Hcount) in Hc by lia.
    pose proof (required_by_leader mem i j j ltac:(lia) ltac:(lia) ltac:(lia)) as R.
    rewrite Z.sub_diag in R. congruence.
Qed.

(** ** The function as the source loads: claims and properties *)

(** C3, as stated, fails: a one-byte buffer holding the leader C3 is a
    truncated sequence, yet with a continuation byte after the buffer in
    memory the function does not return 0: the chunk passes both checks,
    and the run ends in the load of line 221. *)
Lemma truncated_not_rejected :
  lead1 (byte_at (mem_of [xc3; x80]) 0) = true /\
  z_validate_utf8_at 0 (mem_of [xc3; x80]) 1 <> Returned 0.
Proof. split; [reflexivity|]. vm_compute. discriminate. Qed.

(** C3, amended: let a leader at offset [i] of the buffer ask for a
    continuation byte at an offset [j] at or past [len] (the final bytes
    form a truncated sequence).  When [j] lies at or past the end of the
    last 32-byte chunk, or the byte that memory holds at [j] is not a
    continuation byte, the function never returns 1; and it returns 0 when
    moreover [data] is 32-byte aligned, [j] lies in the chunks and every
    byte before the chunk of [j] is below 0x80. *)
Theorem truncated_never_accepted (addr : Z) (mem : memory) (len i j : Z) :
  0 <= i < len -> i < j <= i + reach (byte_at mem i) -> len <= j ->
  32 * Z.of_nat (chunks len) <= j \/ is_cont (byte_at mem j) = false ->
  z_validate_utf8_at addr mem len <> Returned 1 /\
  (addr mod 32 = 0 -> j < 32 * Z.of_nat (chunks len) ->
   (forall h, 0 <= h < 32 * (j / 32) -> byte_at mem h < 128) ->
   z_validate_utf8_at addr mem len = Returned 0).
Proof.
  intros Hi Hj Hl Hm. pose proof (chunks_cover len ltac:(lia)) as Hc. split.
  - intros H. apply z_validate_utf8_at_returns in H. destruct H as [Hv _].
    destruct (verdict_leader_served mem len i j Hv ltac:(lia) Hj) as [Hlt Hcont].
    destruct Hm as [Hm|Hm]; [lia|congruence].
  - intros Ha HjN Hasc. destruct Hm as [Hm|Hm]; [lia|].
    apply (missing_continuation_returns_0 addr mem len i j); (assumption || lia).
Qed.

Lemma truncated_never_accepted_witness :
  z_validate_utf8_at 0 (mem_of [xf0; x90; x80]) 3 = Returned 0.
Proof.
  assert (Hr : reach (byte_at (mem_of [xf0; x90; x80]) 0) = 3) by reflexivity.
  apply (proj2 (truncated_never_accepted 0 (mem_of [xf0; x90; x80]) 3 0 3
                  ltac:(lia) ltac:(rewrite Hr; lia) ltac:(lia)
                  (or_intror eq_refl))).
  - reflexivity.
  - change (chunks 3) with 1%nat. lia.
  - intros h Hh. change (3 / 32) with 0 in Hh. lia.
Defined.



(** C6 does not hold of the code: at an aligned address the chunk
    [C0 80 00 ... 00] is rejected and the function returns 0, while for the
    same chunk after 32 ASCII bytes it does not return 0: the ASCII fast
    path skips the update of [next_bytes], the chunk passes the table check
    against the stale shifted view, and the run ends in the load of line
    221. *)
Theorem ascii_prefix_changes_outcome :
  let s := [xc0; x80] ++ repeat x00 30 in
  let p := repeat x61 32 in
  z_validate_utf8_at 0 (mem_of s) 32 = Returned 0 /\
  z_validate_utf8_at 0 (mem_of (p ++ s)) 64 = Faulted.
Proof. split; vm_compute; reflexivity. Qed.

(** X6: one round of the loop body on an aligned chunk, in byte-by-byte
    terms: it takes the fast path when no byte has its top bit set and the
    carry is zero; otherwise it returns 0 when the scan of the continuation
    bytes fails or some lane shows an error bit against [next_bytes]; and
    when the chunk passes both checks, the load at [data + 31] faults. *)
Theorem chunk_round_scalar (addr : Z) (mem : memory) (data last_cont : Z)
    (next_bytes : vec_t) :
  (addr + data) mod 32 = 0 -> 0 <= last_cont < 2 ^ 32 -> bytes_vec next_bytes ->
  let bytes := fst (v_load mem data) in
  chunk_body_at addr mem data last_cont next_bytes =
  if (mask_of is_high bytes =? 0) && (last_cont =? 0) then Some Skip
  else match scan Z.add last_cont bytes with
       | None => Some Reject
       | Some _ => if pairs_clean bytes next_bytes then None else Some Reject
       end.
Proof.
  intros Ha Hc Hn bytes. rewrite chunk_body_at_aligned by exact Ha.
  rewrite chunk_body_step.
  rewrite chunk_step_add by (try apply v_load_bytes; assumption).
  unfold chunk_ref. fold bytes.
  destruct ((mask_of is_high bytes =? 0) && (last_cont =? 0)); [reflexivity|].
  destruct (scan Z.add last_cont bytes); [|reflexivity].
  destruct (pairs_clean bytes next_bytes); reflexivity.
Qed.

Lemma chunk_round_scalar_witness :
  let mem := mem_of [xe2; x82; xac] in
  let next_bytes := v_shift_left (fst (v_load mem 0)) (_mm256_set1_epi8 0) in
  let bytes := fst (v_load mem 0) in
  chunk_body_at 0 mem 0 0 next_bytes =
  if (mask_of is_high bytes =? 0) && (0 =? 0) then Some Skip
  else match scan Z.add 0 bytes with
       | None => Some Reject
       | Some _ => if pairs_clean bytes next_bytes then None else Some Reject
       end.
Proof.
  intros mem next_bytes. apply (chunk_round_scalar 0 mem 0 0 next_bytes).
  - reflexivity.
  - lia.
  - apply bytes_vecb_spec. vm_compute. reflexivity.
Defined.

(** X12: the function returns 1 exactly when [data] is 32-byte aligned and
    every byte of the chunks is below 0x80: a chunk with a byte of 0x80 or
    more is rejected, or passes and ends the run in the load of line
    221. *)
Theorem returns_one_iff_ascii (addr : Z) (mem : memory) (len : Z) :
  z_validate_utf8_at addr mem len = Returned 1 <->
  addr mod 32 = 0 /\
  forall i, 0 <= i < 32 * Z.of_nat (chunks len) -> byte_at mem i < 128.
Proof. apply returns_one_ascii. Qed.

(** X13: when the bytes of the chunks are valid UTF-8 and one of them is
    0x80 or more, the function does not return: no chunk is rejected, so
    the first chunk that is not pure ASCII passes both checks and the load
    at [data + 31] faults. *)
Theorem valid_non_ascii_faults (addr : Z) (mem : memory) (len h : Z) :
  valid_utf8 (bytes_upto mem (32 * chunks len)) ->
  0 <= h < 32 * Z.of_nat (chunks len) -> 128 <= byte_at mem h ->
  z_validate_utf8_at addr mem len = Faulted.
Proof. apply valid_faults. Qed.

Lemma valid_non_ascii_faults_witness :
  z_validate_utf8_at 0 (mem_of [x61; xe2; x82; xac]) 4 = Faulted.
Proof.
  apply (valid_non_ascii_faults 0 (mem_of [x61; xe2; x82; xac]) 4 1).
  - exists (0x61 :: 0x20AC :: repeat 0 28). split.
    + repeat (constructor; [unfold valid_code_point; lia|]). constructor.
    + vm_compute. reflexivity.
  - change (chunks 4) with 1%nat. lia.
  - vm_compute. discriminate.
Defined.

(** ** The concrete cases of the specification, in zero-filled memory at
    an aligned address *)

Example case_empty : z_validate_utf8_at 0 (mem_of []) 0 = Returned 1.
Proof. reflexivity. Qed.

Example case_hello :
  z_validate_utf8_at 0 (mem_of [x68; x65; x6c; x6c; x6f]) 5 = Returned 1.
Proof. reflexivity. Qed.

Example case_bad_continuation :
  z_validate_utf8_at 0 (mem_of [x61; xc3; x28]) 3 = Returned 0.
Proof. reflexivity. Qed.

Example case_surrogate :
  z_validate_utf8_at 0 (mem_of [xed; xa0; x80]) 3 = Returned 0.
Proof. reflexivity. Qed.

Example case_above_max :
  z_validate_utf8_at 0 (mem_of [xf4; x90; x80; x80]) 4 = Returned 0.
Proof. reflexivity. Qed.

Example case_truncated :
  z_validate_utf8_at 0 (mem_of [xf0; x90; x80]) 3 = Returned 0.
Proof. reflexivity. Qed.

(** A chunk with a byte of 0x80 or more that passes both checks: the run
    ends in the load of line 221. *)
Example case_three_bytes :
  z_validate_utf8_at 0 (mem_of [xe0; xa0; x80]) 3 = Faulted.
Proof. reflexivity. Qed.

(** The tables have no entry for F0 followed by 80..8F: the chunk with this
    overlong four-byte form is not rejected. *)
Example case_overlong_four :
  chunk_body_at 0 (mem_of [xf0; x80; x80; x80]) 0 0
    (v_shift_left (fst (v_load (mem_of [xf0; x80; x80; x80]) 0))
                  (_mm256_set1_epi8 0)) = None.
Proof. reflexivity. Qed.
